(** * WebCrawler (main.py): crawl engine and keyword search

    A shallow embedding of the [WebCrawler] class of [main.py].

    - The crawler object ([self.index], [self.visited]) together with the two
      things a crawl does to the outside world (lines written by [print],
      URLs handed to [requests.get]) form one [state] that is threaded
      through every operation.
    - Methods live in a small state-and-exception monad [M]: a computation
      started in a state reaches a state, and there it has returned a value
      ([Some (Ok a)]), raised an exception ([Some (Raise msg)], with
      [msg = str(e)]), or was cut off because the recursion went deeper than
      the fuel allows ([None]).  The state of a cut-off run is the state the
      program is in when it enters the call that is one level too deep, so
      what holds of every outcome holds along crawls that never end, too.
    - The libraries the class calls ([requests.get], [BeautifulSoup],
      [urljoin]) are parameters of the development (Section [Engine]).  The
      site is static during a crawl: what [requests.get] answers depends on
      the URL only.
    - Strings are byte strings: the UTF-8 encoding of the text Python holds.
      [str.lower] is a parameter too ([lower], Section [Engine]): it is
      Unicode-aware and not a map over characters.  Where a property needs
      to know what it computes, this is a hypothesis: that it lower-cases
      the letters of an ASCII string one by one ([lower_on_ascii]).
      The recursion limit of the interpreter is not modelled. *)

From stdpp Require Import gmap strings list sets.
From Stdlib Require Import Ascii.

#[local] Set Warnings "-clear-no-such-hyp".

(** ** Python values *)

(** The outcome of a Python call: a value, or a raised [Exception] that we
    identify with its message [str(e)]. *)
Inductive result (A : Type) : Type :=
| Ok (a : A)
| Raise (msg : string).
Arguments Ok {A} a.
Arguments Raise {A} msg.

(** [x or y] on an optional string: [None] and the empty string are falsy. *)
Definition py_or (x : option string) (y : string) : string :=
  match x with
  | Some (String c s) => String c s
  | Some EmptyString => y
  | None => y
  end.

(** [if href:] on the value of [link.get('href')]. *)
Definition truthy (href : option string) : bool :=
  match href with
  | Some (String _ _) => true
  | _ => false
  end.

(** [s.startswith(p)] *)
Definition startswith (s p : string) : bool := String.prefix p s.

(** [k in t] on strings: [k] occurs in [t] as a contiguous substring. *)
Fixpoint str_in (k t : string) : bool :=
  String.prefix k t ||
  match t with
  | EmptyString => false
  | String _ t' => str_in k t'
  end.

(** ** Insertion-ordered dictionaries

    [self.index] is a [dict]; iteration follows insertion order, and
    assigning to an existing key keeps the key's position. *)
Definition dict := list (string * string).

Definition keys (d : dict) : list string := map fst d.

Fixpoint dict_get (k : string) (d : dict) : option string :=
  match d with
  | [] => None
  | (k', v) :: d' => if String.eqb k k' then Some v else dict_get k d'
  end.

(** [d[k] = v] *)
Fixpoint dict_set (k v : string) (d : dict) : dict :=
  match d with
  | [] => [(k, v)]
  | (k', v') :: d' =>
      if String.eqb k k' then (k', v) :: d' else (k', v') :: dict_set k v d'
  end.

(** ** State *)

Record state : Type := mkState {
  index : dict;               (* self.index *)
  visited : gset string;      (* self.visited *)
  stdout : list string;       (* lines written by print, oldest first *)
  requests : list string;     (* URLs passed to requests.get, oldest first *)
}.

(** [WebCrawler()] in a fresh process. *)
Definition init : state :=
  {| index := []; visited := ∅; stdout := []; requests := [] |}.

(** ** The monad of methods *)

Definition M (A : Type) : Type := state -> state * option (result A).

Definition ret {A} (a : A) : M A := fun st => (st, Some (Ok a)).

Definition bind {A B} (m : M A) (k : A -> M B) : M B :=
  fun st =>
    match m st with
    | (st', Some (Ok a)) => k a st'
    | (st', Some (Raise e)) => (st', Some (Raise e))
    | (st', None) => (st', None)
    end.

(** [try: m  except Exception as e: h e] *)
Definition try_except {A} (m : M A) (h : string -> M A) : M A :=
  fun st =>
    match m st with
    | (st', Some (Raise e)) => h e st'
    | out => out
    end.

(** Lifting a library call that may raise. *)
Definition call {A} (r : result A) : M A := fun st => (st, Some r).

(** The recursion is too deep for the fuel. *)
Definition cut {A} : M A := fun st => (st, None).

Notation "'let!' x ':=' m 'in' k" := (bind m (fun x => k))
  (at level 10, x name, m at level 100, k at level 200).
Notation "m '>>' k" := (bind m (fun _ => k))
  (at level 100, k at level 200, right associativity).

(** [for x in l: body x] *)
Fixpoint for_each {A} (l : list A) (body : A -> M unit) : M unit :=
  match l with
  | [] => ret tt
  | x :: l' => body x >> for_each l' body
  end.

(** Primitive effects. *)
Definition get_state : M state := fun st => (st, Some (Ok st)).

Definition visited_add (url : string) : M unit :=
  fun st => (mkState (index st) ({[url]} ∪ visited st) (stdout st) (requests st), Some (Ok tt)).

Definition index_set (url text : string) : M unit :=
  fun st => (mkState (dict_set url text (index st)) (visited st) (stdout st) (requests st),
             Some (Ok tt)).

Definition print (line : string) : M unit :=
  fun st => (mkState (index st) (visited st) (stdout st ++ [line]) (requests st), Some (Ok tt)).

Definition log_request (url : string) : M unit :=
  fun st => (mkState (index st) (visited st) (stdout st) (requests st ++ [url]), Some (Ok tt)).

(** [f"Error crawling {url}: {e}"] *)
Definition error_line (url e : string) : string :=
  "Error crawling " +:+ url +:+ ": " +:+ e.

(** ** The crawl engine *)

Section Engine.
(** [requests.get(url).text]: the markup of the page, or the exception the
    transport raised. *)
Variable requests_get : string -> result string.
(** [BeautifulSoup(text, 'html.parser').get_text()] *)
Variable get_text : string -> string.
(** [[link.get('href') for link in soup.find_all('a')]]: the [href] of each
    anchor in document order, [None] when the attribute is missing. *)
Variable find_all_a : string -> list (option string).
(** [urllib.parse.urljoin(base, href)]; it raises [ValueError] on some
    malformed inputs. *)
Variable urljoin : string -> string -> result string.

(** [s.lower()], the lower-casing of Python's text. *)
Variable lower : string -> string.

(** [requests.get(url)], recording the call. *)
Definition http_get (url : string) : M string :=
  log_request url >> call (requests_get url).

(** One iteration of the loop [for link in soup.find_all('a')], given the
    method [self.crawl]. *)
Definition visit_link (self_crawl : string -> option string -> M unit)
    (url : string) (base_url : option string) (link : option string) : M unit :=
  if truthy link then
    let! href := call (urljoin (py_or base_url url) (default "" link)) in
    if startswith href (py_or base_url url)
    then self_crawl href (Some (py_or base_url url))
    else ret tt
  else ret tt.

(** The body of the [try] block. *)
Definition crawl_try (self_crawl : string -> option string -> M unit)
    (url : string) (base_url : option string) : M unit :=
  let! text := http_get url in
  index_set url (get_text text) >>
  for_each (find_all_a text) (visit_link self_crawl url base_url).

(** [WebCrawler.crawl]. [fuel] bounds the depth of the recursion. *)
Fixpoint crawl (fuel : nat) (url : string) (base_url : option string) : M unit :=
  match fuel with
  | O => cut
  | S fuel' =>
      let! st := get_state in
      if bool_decide (url ∈ visited st) then ret tt
      else
        visited_add url >>
        try_except (crawl_try (crawl fuel') url base_url)
                   (fun e => print (error_line url e))
  end.

(** [WebCrawler.search] *)
Definition search_loop (keyword : string) (d : dict) : list string :=
  fold_left
    (fun results '(url, text) =>
       if str_in (lower keyword) (lower text) then results ++ [url] else results)
    d [].

Definition search (keyword : string) : M (list string) :=
  let! st := get_state in
  ret (search_loop keyword (index st)).

(** [WebCrawler.print_results] *)
Definition print_results (results : list string) : M unit :=
  match results with
  | _ :: _ =>
      print "Search results:" >>
      for_each results (fun r => print ("- " +:+ r))
  | [] => print "No results found."
  end.

(** [main] *)
Definition main (fuel : nat) : M unit :=
  crawl fuel "https://example.com" None >>
  let! results := search "test" in
  print_results results.

End Engine.

(** ** State after each step of [crawl] *)

(** [self.visited.add(url)] followed by the call [requests.get(url)]. *)
Definition entered (url : string) (st : state) : state :=
  mkState (index st) ({[url]} ∪ visited st) (stdout st) (requests st ++ [url]).

(** [self.index[url] = text] *)
Definition indexed (url text : string) (st : state) : state :=
  mkState (dict_set url text (index st)) (visited st) (stdout st) (requests st).

(** [print(line)] *)
Definition printed (line : string) (st : state) : state :=
  mkState (index st) (visited st) (stdout st ++ [line]) (requests st).

(** The [except] clause, applied to the outcome of the [try] block: the
    state it leaves and the outcome of the call. *)
Definition reported (url : string) (r : option (result unit)) (st : state) : state :=
  match r with
  | Some (Raise e) => printed (error_line url e) st
  | _ => st
  end.

Definition caught (r : option (result unit)) : option (result unit) :=
  match r with
  | Some (Raise _) => Some (Ok tt)
  | _ => r
  end.

(** ** Big-step semantics of a crawl

    [crawl_run url base_url st st' o]: the call [self.crawl(url, base_url)]
    started in [st] has reached [st'], where it has returned ([o = Some _])
    or is cut off at the entry of some nested call ([o = None]).
    [links_run url base_url links st st' o]: the same for the [for] loop over
    [links] run inside that call; the loop ends normally or because a
    [urljoin] raised.  The relation is derived from [crawl] (lemmas
    [crawl_run_of_crawl] and [crawl_of_crawl_run]) and serves for induction
    over the call tree. *)
Section BigStep.

Variable requests_get : string -> result string.
Variable get_text : string -> string.
Variable find_all_a : string -> list (option string).
Variable urljoin : string -> string -> result string.

Inductive crawl_run :
  string -> option string -> state -> state -> option (result unit) -> Prop :=
| run_cut url base_url st :
    crawl_run url base_url st st None
| run_visited url base_url st :
    url ∈ visited st ->
    crawl_run url base_url st st (Some (Ok tt))
| run_fetch_error url base_url st e :
    url ∉ visited st ->
    requests_get url = Raise e ->
    crawl_run url base_url st (printed (error_line url e) (entered url st)) (Some (Ok tt))
| run_page url base_url st text st' o :
    url ∉ visited st ->
    requests_get url = Ok text ->
    links_run url base_url (find_all_a text)
              (indexed url (get_text text) (entered url st)) st' o ->
    crawl_run url base_url st (reported url o st') (caught o)
with links_run :
  string -> option string -> list (option string) ->
  state -> state -> option (result unit) -> Prop :=
| run_done url base_url st :
    links_run url base_url [] st st (Some (Ok tt))
| run_skip url base_url link links st st' o :
    truthy link = false ->
    links_run url base_url links st st' o ->
    links_run url base_url (link :: links) st st' o
| run_join_error url base_url link links st e :
    truthy link = true ->
    urljoin (py_or base_url url) (default "" link) = Raise e ->
    links_run url base_url (link :: links) st st (Some (Raise e))
| run_outside url base_url link links st href st' o :
    truthy link = true ->
    urljoin (py_or base_url url) (default "" link) = Ok href ->
    startswith href (py_or base_url url) = false ->
    links_run url base_url links st st' o ->
    links_run url base_url (link :: links) st st' o
| run_inside url base_url link links st href st1 st' o :
    truthy link = true ->
    urljoin (py_or base_url url) (default "" link) = Ok href ->
    startswith href (py_or base_url url) = true ->
    crawl_run href (Some (py_or base_url url)) st st1 (Some (Ok tt)) ->
    links_run url base_url links st1 st' o ->
    links_run url base_url (link :: links) st st' o
| run_inside_cut url base_url link links st href st1 :
    truthy link = true ->
    urljoin (py_or base_url url) (default "" link) = Ok href ->
    startswith href (py_or base_url url) = true ->
    crawl_run href (Some (py_or base_url url)) st st1 None ->
    links_run url base_url (link :: links) st st1 None.

(** The call configurations [(url, base_url)] that the link graph makes
    reachable: [child (u, b) (u', b')] when the page at [u] has a link that
    resolves, against the scope of the call, to the in-scope URL [u']. *)
Inductive child : string * option string -> string * option string -> Prop :=
| child_link url base_url text h href :
    requests_get url = Ok text ->
    Some h ∈ find_all_a text ->
    h ≠ "" ->
    urljoin (py_or base_url url) h = Ok href ->
    startswith href (py_or base_url url) = true ->
    child (url, base_url) (href, Some (py_or base_url url)).

Definition reachable (c0 c : string * option string) : Prop := rtc child c0 c.

End BigStep.

Scheme crawl_run_mut := Minimality for crawl_run Sort Prop
  with links_run_mut := Minimality for links_run Sort Prop.

(** ** State invariants *)

(** Every requested URL was marked visited first, and none was requested
    twice. *)
Definition requests_ok (st : state) : Prop :=
  NoDup (requests st) ∧ ∀ u, u ∈ requests st -> u ∈ visited st.

(** The keys of the index are visited URLs. *)
Definition index_in_visited (st : state) : Prop :=
  ∀ u, u ∈ keys (index st) -> u ∈ visited st.

(** The index holds exactly the text of the requested pages that were
    delivered. *)
Definition index_ok (requests_get : string -> result string)
    (get_text : string -> string) (st : state) : Prop :=
  ∀ u, dict_get u (index st) =
       if bool_decide (u ∈ requests st) then
         match requests_get u with
         | Ok text => Some (get_text text)
         | Raise _ => None
         end
       else None.

(** The reading of scope containment in which every link of a delivered page
    is followed: each link with a non-empty [href] resolves, and when the
    resolved URL starts with the scope string it is crawled, hence is visited
    once the call has returned.  The site [broken_link_site] below refutes
    it. *)
Definition every_link_followed
    (requests_get : string -> result string) (get_text : string -> string)
    (find_all_a : string -> list (option string))
    (urljoin : string -> string -> result string) : Prop :=
  ∀ fuel url base_url st st' r text h,
    crawl requests_get get_text find_all_a urljoin fuel url base_url st = (st', Some r) ->
    url ∉ visited st ->
    requests_get url = Ok text ->
    Some h ∈ find_all_a text ->
    h ≠ "" ->
    ∃ href, urljoin (py_or base_url url) h = Ok href ∧
            (startswith href (py_or base_url url) = true -> href ∈ visited st').

(** ** The traversal of the specification, with its scope fixed

    The specification describes a traversal whose scope string is
    established at the top of the recursion and threaded unchanged through
    all descendants.  [crawl_in scope] is that traversal: every link is
    resolved against [scope] and tested against [scope], at every depth.
    [crawl] has no such parameter; it computes [base_url or url] anew in
    every call. *)

Section FixedScope.

Variable requests_get : string -> result string.
Variable get_text : string -> string.
Variable find_all_a : string -> list (option string).
Variable urljoin : string -> string -> result string.

(** One link of a page, in a traversal of [scope]. *)
Definition follow_in (scope : string) (self_crawl : string -> M unit)
    (link : option string) : M unit :=
  if truthy link then
    let! href := call (urljoin scope (default "" link)) in
    if startswith href scope then self_crawl href else ret tt
  else ret tt.

Fixpoint crawl_in (scope : string) (fuel : nat) (url : string) : M unit :=
  match fuel with
  | O => cut
  | S fuel' =>
      let! st := get_state in
      if bool_decide (url ∈ visited st) then ret tt
      else
        visited_add url >>
        try_except
          (let! text := http_get requests_get url in
           index_set url (get_text text) >>
           for_each (find_all_a text) (follow_in scope (crawl_in scope fuel')))
          (fun e => print (error_line url e))
  end.

End FixedScope.

(** ** Case-insensitive substrings, as the specification words them *)

(** [w] occurs in [t] as a contiguous substring. *)
Definition substring_of (w t : string) : Prop :=
  ∃ pre post, t = pre +:+ w +:+ post.

(** The letters of the alphabet, capital and small, in pairs. *)
Definition case_pairs : list (ascii * ascii) :=
  zip (String.list_ascii_of_string "ABCDEFGHIJKLMNOPQRSTUVWXYZ")
      (String.list_ascii_of_string "abcdefghijklmnopqrstuvwxyz").

(** Two characters are the same up to case: they are equal, or they are the
    capital and the small form of one letter. *)
Definition same_letter (c d : ascii) : bool :=
  Ascii.eqb c d ||
  existsb (fun p => (Ascii.eqb c p.1 && Ascii.eqb d p.2) ||
                    (Ascii.eqb c p.2 && Ascii.eqb d p.1)) case_pairs.

(** Two strings are the same up to the case of letters. *)
Fixpoint ci_eqb (w k : string) : bool :=
  match w, k with
  | EmptyString, EmptyString => true
  | String c w', String d k' => same_letter c d && ci_eqb w' k'
  | _, _ => false
  end.

(** Every character. *)
Definition all_ascii : list ascii := map ascii_of_nat (seq 0 256).

(** [k] occurs in [t] up to the case of letters: some substring of [t] is
    [k] up to case. *)
Definition ci_substring_of (k t : string) : Prop :=
  ∃ w, substring_of w t ∧ ci_eqb w k = true.

(** ** What is known of [str.lower] *)

(** An ASCII string: every byte is below 128. *)
Fixpoint is_ascii (s : string) : bool :=
  match s with
  | EmptyString => true
  | String c s' => (nat_of_ascii c <? 128)%nat && is_ascii s'
  end.

(** Lower-casing the letters [A] to [Z] one by one, which is what
    [str.lower] does to an ASCII string. *)
Definition ascii_lower_char (c : ascii) : ascii :=
  let n := nat_of_ascii c in
  if (65 <=? n)%nat && (n <=? 90)%nat then ascii_of_nat (n + 32) else c.

Fixpoint ascii_lower (s : string) : string :=
  match s with
  | EmptyString => EmptyString
  | String c s' => String (ascii_lower_char c) (ascii_lower s')
  end.

(** [lower] lower-cases ASCII strings as [str.lower] does. *)
Definition lower_on_ascii (lower : string -> string) : Prop :=
  ∀ s, is_ascii s = true -> lower s = ascii_lower s.

(** Two Greek words in capitals, [ΑΣ] and [ΑΣΑ], and their lower-case forms
    [ας] and [ασα]: [str.lower] turns a capital sigma into the final form
    [ς] at the end of a word and into [σ] elsewhere. *)
Definition capital_alpha_sigma : string := "ΑΣ".
Definition capital_alpha_sigma_alpha : string := "ΑΣΑ".
Definition small_alpha_final_sigma : string := "ας".
Definition small_alpha_sigma_alpha : string := "ασα".

(** [str.lower] on the strings of the search examples: the two Greek words
    are lower-cased as Python does, every other string letter by letter as
    an ASCII string. *)
Definition mock_lower (s : string) : string :=
  if String.eqb s capital_alpha_sigma then small_alpha_final_sigma
  else if String.eqb s capital_alpha_sigma_alpha then small_alpha_sigma_alpha
  else ascii_lower s.

(** [lower] finds the keyword [k] only where it occurs up to case: when the
    lower-cased keyword occurs in a lower-cased text, the text contains the
    keyword up to case.  [str.lower] has this property for the keyword
    [test]: the only characters whose lower-case form contains [t], [e] or
    [s] are these letters and their capitals.  It does not have it for every
    keyword: the Kelvin sign lower-cases to [k]. *)
Definition lower_finds_only (lower : string -> string) (k : string) : Prop :=
  ∀ t, substring_of (lower k) (lower t) -> ci_substring_of k t.



(** ** A test double for the libraries

    A site is a table from URL to page (text and anchors); a URL missing from
    the table fails to load.  The markup of a page is represented by its URL.
    [mock_urljoin] agrees with [urllib.parse.urljoin] on the inputs used
    below: bases that are bare origins, absolute [http...] targets, relative
    paths, and an unbalanced IPv6 bracket, on which [urljoin] raises
    [ValueError("Invalid IPv6 URL")]. *)
Definition site := list (string * (string * list (option string))).

Fixpoint site_page (s : site) (u : string) : option (string * list (option string)) :=
  match s with
  | [] => None
  | (k, p) :: s' => if String.eqb u k then Some p else site_page s' u
  end.

Definition mock_get (s : site) (u : string) : result string :=
  match site_page s u with
  | Some _ => Ok u
  | None => Raise "Test Error"
  end.

Definition mock_text (s : site) (m : string) : string :=
  match site_page s m with
  | Some p => fst p
  | None => ""
  end.

Definition mock_links (s : site) (m : string) : list (option string) :=
  match site_page s m with
  | Some p => snd p
  | None => []
  end.

Definition mock_urljoin (base href : string) : result string :=
  if String.eqb href "" then Ok base
  else if String.prefix "http://[" href then Raise "Invalid IPv6 URL"
  else if String.prefix "http" href then Ok href
  else if String.prefix "/" href then Ok (base +:+ href)
  else Ok (base +:+ "/" +:+ href).

Definition mock_crawl (s : site) : nat -> string -> option string -> M unit :=
  crawl (mock_get s) (mock_text s) (mock_links s) mock_urljoin.

(** No page loads (as in [test_crawl_error]). *)
Definition down_site : site := [].

(** A home page with an internal and an external link (as in
    [test_crawl_success]), an anchor without [href] and one with an empty
    [href]. *)
Definition example_site : site :=
  [("https://example.com",
    ("Welcome!", [Some "/about"; Some "https://www.external.com"; None; Some ""]));
   ("https://example.com/about", ("About Us", []))].

(** A diamond: the home page links to [/b] and [/c], which both link to
    [/d]. *)
Definition diamond_site : site :=
  [("https://example.com", ("home", [Some "/b"; Some "/c"]));
   ("https://example.com/b", ("b", [Some "/d"]));
   ("https://example.com/c", ("c", [Some "/d"]));
   ("https://example.com/d", ("d", []))].

(** A cycle: two pages that link to each other. *)
Definition cyclic_site : site :=
  [("https://example.com", ("home", [Some "/about"]));
   ("https://example.com/about", ("About Us", [Some "https://example.com"]))].

(** A link to another host whose name extends the scope string. *)
Definition evil_site : site :=
  [("https://example.com",
    ("home", [Some "https://www.external.com"; Some "https://example.com.evil.com"]));
   ("https://example.com.evil.com", ("evil", []));
   ("https://www.external.com", ("external", []))].

(** A page whose first link cannot be resolved, followed by a link into the
    site. *)
Definition broken_link_site : site :=
  [("https://example.com", ("home", [Some "http://["; Some "/about"]));
   ("https://example.com/about", ("About Us", []))].

(** The mock of the crawl tests: [requests.get] answers every URL with the
    same page, whose anchors are [links]. *)
Definition same_page_crawl (links : list (option string)) :
    nat -> string -> option string -> M unit :=
  crawl (fun _ => Ok "page") (fun _ => "text") (fun _ => links) mock_urljoin.

(** A site without end: every URL loads, and its page links to the same URL
    extended by [/next]. *)
Definition endless_get (u : string) : result string := Ok u.

Definition endless_links (m : string) : list (option string) := [Some (m +:+ "/next")].

Definition endless_crawl : nat -> string -> option string -> M unit :=
  crawl endless_get (fun m => m) endless_links mock_urljoin.

(** A crawler whose index was filled by hand (as in the search tests). *)
Definition filled : state :=
  {| index := [("a", "Hello World"); ("b", "hello there"); ("c", "Bye")];
     visited := ∅; stdout := []; requests := [] |}.

(** The same crawler with every text in capitals. *)
Definition shouted : state :=
  {| index := [("a", "HELLO WORLD"); ("b", "HELLO THERE"); ("c", "BYE")];
     visited := ∅; stdout := []; requests := [] |}.

(** ** Vocabulary for the properties of whole sessions *)

(** What [print_results] writes for [results]. *)
Definition result_lines (results : list string) : list string :=
  match results with
  | [] => ["No results found."]
  | _ :: _ => "Search results:" :: map (fun r => "- " +:+ r) results
  end.

(** The index entry a request leaves behind: the URL with the text of its
    page when the page was delivered, nothing when the request raised. *)
Definition index_entry (requests_get : string -> result string)
    (get_text : string -> string) (u : string) : option (string * string) :=
  match requests_get u with
  | Ok text => Some (u, get_text text)
  | Raise _ => None
  end.

(** A requested URL is a hit for [keyword]: its page was delivered and the
    text of the page passes the test of [search]. *)
Definition hit (requests_get : string -> result string)
    (get_text : string -> string) (lower : string -> string)
    (keyword u : string) : option string :=
  match requests_get u with
  | Ok text => if str_in (lower keyword) (lower (get_text text)) then Some u else None
  | Raise _ => None
  end.

(** Why [crawl] prints the line [Error crawling u: e]: the request of [u]
    raised [e], or the page of [u] was delivered and [urljoin] raised [e] on
    one of its links. *)
Definition error_cause (requests_get : string -> result string)
    (find_all_a : string -> list (option string))
    (urljoin : string -> string -> result string) (u e : string) : Prop :=
  requests_get u = Raise e ∨
  ∃ text scope h,
    requests_get u = Ok text ∧ Some h ∈ find_all_a text ∧ h ≠ "" ∧
    urljoin scope h = Raise e.

(** Two indexes with the same URLs in the same order, whose texts are equal
    or are ASCII texts that differ in the case of letters only. *)
Definition same_up_to_case (d d' : dict) : Prop :=
  Forall2 (fun p q =>
    p.1 = q.1 ∧
    (p.2 = q.2 ∨ (is_ascii p.2 = true ∧ is_ascii q.2 = true ∧ ci_eqb p.2 q.2 = true)))
    d d'.

(** The account of what a stretch of a crawl, from [st] to [st'], printed
    and requested: the lines printed are the reports [reports], one
    [(url, message)] per line; the URLs requested are [new]; no URL is
    reported twice; every report is about a URL requested in the stretch and
    has a cause; the URLs requested were not visited before and are visited
    after. *)
Definition crawl_log (requests_get : string -> result string)
    (find_all_a : string -> list (option string))
    (urljoin : string -> string -> result string)
    (st st' : state) (reports : list (string * string)) (new : list string) : Prop :=
  stdout st' = stdout st ++ map (fun r => error_line r.1 r.2) reports ∧
  requests st' = requests st ++ new ∧
  NoDup reports.*1 ∧
  (∀ u e, (u, e) ∈ reports -> u ∈ new ∧ error_cause requests_get find_all_a urljoin u e) ∧
  (∀ u, u ∈ new -> (u ∉ visited st) ∧ u ∈ visited st') ∧
  visited st ⊆ visited st'.

(** The links of the page of [u] that resolve into the scope [s] lead into
    the set [V]. *)
Definition links_lead_into (requests_get : string -> result string)
    (find_all_a : string -> list (option string))
    (urljoin : string -> string -> result string)
    (s u : string) (V : gset string) : Prop :=
  ∀ text h href,
    requests_get u = Ok text -> Some h ∈ find_all_a text -> h ≠ "" ->
    urljoin s h = Ok href -> startswith href s = true -> href ∈ V.

(** No delivered page holds a link on which [urljoin] raises when resolved
    against [s]. *)
Definition links_resolve (requests_get : string -> result string)
    (find_all_a : string -> list (option string))
    (urljoin : string -> string -> result string) (s : string) : Prop :=
  ∀ u text h e,
    requests_get u = Ok text -> Some h ∈ find_all_a text -> h ≠ "" ->
    urljoin s h ≠ Raise e.

(** A site with a dead link: [/gone] does not load. *)
Definition partial_site : site :=
  [("https://example.com", ("home", [Some "/gone"; Some "/about"]));
   ("https://example.com/about", ("About Us", []))].

(** A site whose pages mention the keyword of [main]. *)
Definition test_site : site :=
  [("https://example.com", ("Unit TEST page", [Some "/a"; Some "/b"]));
   ("https://example.com/a", ("nothing here", []));
   ("https://example.com/b", ("the latest news", []))].

(** * Properties *)

(** ** Generic facts on strings and dictionaries *)

Lemma startswith_correct (s p : string) :
  startswith s p = true ↔ ∃ rest, s = p +:+ rest.
Proof.
  unfold startswith. revert s. induction p as [|c p IH]; intros s.
  - split; [intros _; by exists s | intros _; by destruct s].
  - destruct s as [|d s]; simpl.
    + split; [done | intros [rest Hr]; discriminate].
    + destruct (Ascii.ascii_dec c d) as [->|Hne].
      * rewrite IH. split; intros [rest Hr]; exists rest; [by rewrite Hr | by injection Hr].
      * split; [done | intros [rest Hr]; injection Hr; congruence].
Qed.

Lemma startswith_empty (s : string) : startswith s "" = true.
Proof. apply startswith_correct. by exists s. Qed.

Lemma startswith_refl (s : string) : startswith s s = true.
Proof.
  apply startswith_correct. exists "".
  induction s as [|c s IH]; [done|].
  change (String c s = String c (s +:+ "")). by rewrite <- IH.
Qed.

Lemma string_app_assoc (a b c : string) : (a +:+ b) +:+ c = a +:+ (b +:+ c).
Proof.
  induction a as [|x a IH]; [done|].
  change (String x ((a +:+ b) +:+ c) = String x (a +:+ b +:+ c)). by rewrite IH.
Qed.

Lemma string_length_app (a b : string) :
  String.length (a +:+ b) = String.length a + String.length b.
Proof.
  induction a as [|x a IH]; [done|].
  change (S (String.length (a +:+ b)) = S (String.length a + String.length b)).
  by rewrite IH.
Qed.

Lemma truthy_nonempty (h : string) : h ≠ "" -> truthy (Some h) = true.
Proof. by destruct h. Qed.

Lemma truthy_inv (link : option string) :
  truthy link = true -> ∃ h, link = Some h ∧ h ≠ "".
Proof. destruct link as [[|c h]|]; [done | by eexists | done]. Qed.

Lemma dict_get_set (k k' v : string) (d : dict) :
  dict_get k' (dict_set k v d) = if String.eqb k' k then Some v else dict_get k' d.
Proof.
  induction d as [|[k0 v0] d IH]; simpl.
  - done.
  - destruct (String.eqb k k0) eqn:E; simpl.
    + apply String.eqb_eq in E as <-. by destruct (String.eqb k' k).
    + rewrite IH. destruct (String.eqb k' k0) eqn:E'; [|done].
      apply String.eqb_eq in E' as ->.
      destruct (String.eqb k0 k) eqn:E''; [|done].
      apply String.eqb_eq in E'' as ->. by rewrite String.eqb_refl in E.
Qed.

Lemma keys_dict_set (k v : string) (d : dict) :
  keys (dict_set k v d) = if bool_decide (k ∈ keys d) then keys d else keys d ++ [k].
Proof.
  induction d as [|[k0 v0] d IH]; simpl.
  - done.
  - destruct (String.eqb k k0) eqn:E; simpl.
    + apply String.eqb_eq in E as <-. rewrite bool_decide_eq_true_2; [done | left].
    + rewrite IH. apply String.eqb_neq in E.
      destruct (decide (k ∈ keys d)) as [Hin|Hnin].
      * rewrite !bool_decide_eq_true_2; [done | by right | done].
      * rewrite !bool_decide_eq_false_2; [done | | done].
        intros Hin. apply elem_of_cons in Hin as [?|?]; done.
Qed.

Lemma elem_of_keys_dict_get (k : string) (d : dict) :
  k ∈ keys d ↔ is_Some (dict_get k d).
Proof.
  induction d as [|[k0 v0] d IH]; simpl.
  - split; [intros H; by apply elem_of_nil in H | intros [? ?]; done].
  - rewrite elem_of_cons. destruct (String.eqb k k0) eqn:E.
    + apply String.eqb_eq in E. split; [by eexists | by left].
    + apply String.eqb_neq in E. rewrite <- IH.
      split; [intros [?|?]; done | by right].
Qed.

Lemma NoDup_keys_dict_set (k v : string) (d : dict) :
  NoDup (keys d) -> NoDup (keys (dict_set k v d)).
Proof.
  intros Hnd. rewrite keys_dict_set. case_bool_decide as Hin; [done|].
  apply NoDup_app. split; [done|]. split; [|apply NoDup_singleton].
  intros x Hx Hx'. apply list_elem_of_singleton in Hx' as ->. done.
Qed.

(** ** The crawl engine *)

Section EngineFacts.

Variable requests_get : string -> result string.
Variable get_text : string -> string.
Variable find_all_a : string -> list (option string).
Variable urljoin : string -> string -> result string.

Local Abbreviation crawl := (crawl requests_get get_text find_all_a urljoin).
Local Abbreviation visit_link := (visit_link urljoin).
Local Abbreviation crawl_run := (crawl_run requests_get get_text find_all_a urljoin).
Local Abbreviation links_run := (links_run requests_get get_text find_all_a urljoin).
Local Abbreviation child := (child requests_get find_all_a urljoin).
Local Abbreviation reachable := (reachable requests_get find_all_a urljoin).

(** [crawl], one level unfolded, in terms of the states it goes through. *)
Lemma crawl_unfold (fuel : nat) (url : string) (base_url : option string) (st : state) :
  crawl (S fuel) url base_url st =
  if bool_decide (url ∈ visited st) then (st, Some (Ok tt))
  else match requests_get url with
       | Raise e => (printed (error_line url e) (entered url st), Some (Ok tt))
       | Ok text =>
           let '(st', o) :=
             for_each (find_all_a text) (visit_link (crawl fuel) url base_url)
                      (indexed url (get_text text) (entered url st)) in
           (reported url o st', caught o)
       end.
Proof.
  simpl. unfold bind, get_state. case_bool_decide; [reflexivity|].
  unfold visited_add, try_except, crawl_try, http_get, bind, log_request, call, index_set.
  simpl. destruct (requests_get url) as [text|e]; [|reflexivity].
  fold (indexed url (get_text text) (entered url st)).
  destruct (for_each _ _ _) as [st' [[[]|e]|]]; reflexivity.
Qed.

(** One iteration of the link loop. *)
Lemma for_each_link (self_crawl : string -> option string -> M unit)
    (url : string) (base_url : option string)
    (link : option string) (links : list (option string)) (st : state) :
  for_each (link :: links) (visit_link self_crawl url base_url) st =
  if truthy link then
    match urljoin (py_or base_url url) (default "" link) with
    | Raise e => (st, Some (Raise e))
    | Ok href =>
        if startswith href (py_or base_url url) then
          match self_crawl href (Some (py_or base_url url)) st with
          | (st1, Some (Ok _)) => for_each links (visit_link self_crawl url base_url) st1
          | (st1, Some (Raise e)) => (st1, Some (Raise e))
          | (st1, None) => (st1, None)
          end
        else for_each links (visit_link self_crawl url base_url) st
    end
  else for_each links (visit_link self_crawl url base_url) st.
Proof.
  simpl. unfold bind at 1. unfold visit_link at 1.
  destruct (truthy link); [|reflexivity].
  unfold bind, call. destruct (urljoin _ _) as [href|e]; [|reflexivity].
  destruct (startswith _ _); reflexivity.
Qed.

(** *** The function and the relation agree *)

Lemma links_run_of_for_each (fuel : nat) (url : string) (base_url : option string) :
  (∀ u b st st' o, crawl fuel u b st = (st', o) ->
                   (o = None ∨ o = Some (Ok tt)) ∧ crawl_run u b st st' o) ->
  ∀ links st st' o,
    for_each links (visit_link (crawl fuel) url base_url) st = (st', o) ->
    links_run url base_url links st st' o.
Proof.
  intros IH links. induction links as [|link links IHl]; intros st st' o Hrun.
  - injection Hrun as <- <-. constructor.
  - rewrite for_each_link in Hrun.
    destruct (truthy link) eqn:Ht; [|by apply run_skip, IHl].
    destruct (urljoin _ _) as [href|e] eqn:Hj.
    + destruct (startswith _ _) eqn:Hs; [|by eapply run_outside, IHl].
      destruct (crawl fuel href _ st) as [st1 o1] eqn:Hc.
      apply IH in Hc as [[->| ->] Hc].
      * injection Hrun as <- <-. by eapply run_inside_cut.
      * eapply run_inside; eauto.
    + injection Hrun as <- <-. by apply run_join_error.
Qed.

(** A call of [crawl] never raises, and what it does is a run. *)
Lemma crawl_run_of_crawl (fuel : nat) (url : string) (base_url : option string)
    (st st' : state) (o : option (result unit)) :
  crawl fuel url base_url st = (st', o) ->
  (o = None ∨ o = Some (Ok tt)) ∧ crawl_run url base_url st st' o.
Proof.
  revert url base_url st st' o.
  induction fuel as [|fuel IH]; intros url base_url st st' o Hrun.
  { injection Hrun as <- <-. split; [by left | constructor]. }
  rewrite crawl_unfold in Hrun. case_bool_decide as Hv.
  - injection Hrun as <- <-. split; [by right | by constructor].
  - destruct (requests_get url) as [text|e] eqn:Hget.
    + destruct (for_each _ _ _) as [st1 o1] eqn:Hloop.
      injection Hrun as <- <-. split.
      * destruct o1 as [[[]|e]|]; simpl; auto.
      * eapply run_page; eauto. eapply links_run_of_for_each; eauto.
    + injection Hrun as <- <-. split; [by right | by constructor].
Qed.

Lemma for_each_fuel_mono (fuel fuel' : nat) (url : string) (base_url : option string) :
  (∀ u b st st' r, crawl fuel u b st = (st', Some r) -> crawl fuel' u b st = (st', Some r)) ->
  ∀ links st st' r,
    for_each links (visit_link (crawl fuel) url base_url) st = (st', Some r) ->
    for_each links (visit_link (crawl fuel') url base_url) st = (st', Some r).
Proof.
  intros IH links. induction links as [|link links IHl]; intros st st' r Hrun; [done|].
  rewrite for_each_link in Hrun |- *.
  destruct (truthy link); [|by apply IHl].
  destruct (urljoin _ _) as [href|e]; [|done].
  destruct (startswith _ _); [|by apply IHl].
  destruct (crawl fuel href _ st) as [st1 [r1|]] eqn:Hc; [|done].
  rewrite (IH _ _ _ _ _ Hc). destruct r1; [by apply IHl | done].
Qed.

(** More fuel never changes the outcome of a crawl that returned. *)
Lemma crawl_fuel_mono (fuel fuel' : nat) (url : string) (base_url : option string)
    (st st' : state) (r : result unit) :
  fuel ≤ fuel' ->
  crawl fuel url base_url st = (st', Some r) ->
  crawl fuel' url base_url st = (st', Some r).
Proof.
  revert fuel' url base_url st st' r.
  induction fuel as [|fuel IH]; intros fuel' url base_url st st' r Hle Hrun; [done|].
  destruct fuel' as [|fuel']; [lia|].
  rewrite crawl_unfold in Hrun |- *. case_bool_decide; [done|].
  destruct (requests_get url) as [text|e]; [|done].
  destruct (for_each _ (visit_link (crawl fuel) _ _) _) as [st1 [r1|]] eqn:Hloop; [|done].
  assert (Hle' : fuel ≤ fuel') by lia.
  by rewrite (for_each_fuel_mono fuel fuel' url base_url
                (fun u b st0 st0' r0 => IH fuel' u b st0 st0' r0 Hle') _ _ _ _ Hloop).
Qed.

Lemma crawl_of_crawl_run_some (url : string) (base_url : option string)
    (st st' : state) (o : option (result unit)) :
  crawl_run url base_url st st' o ->
  ∀ r, o = Some r -> ∃ fuel, crawl fuel url base_url st = (st', Some r).
Proof.
  revert url base_url st st' o.
  apply (crawl_run_mut requests_get get_text find_all_a urljoin
    (fun url base_url st st' o =>
       ∀ r, o = Some r -> ∃ fuel, crawl fuel url base_url st = (st', Some r))
    (fun url base_url links st st' o =>
       ∀ r, o = Some r ->
            ∃ fuel, for_each links (visit_link (crawl fuel) url base_url) st = (st', Some r))).
  - done.
  - intros url b st Hv r [= <-]. exists 1. rewrite crawl_unfold. by rewrite bool_decide_eq_true_2.
  - intros url b st e Hv Hget r [= <-]. exists 1.
    rewrite crawl_unfold, bool_decide_eq_false_2, Hget; done.
  - intros url b st text st' o Hv Hget _ IH r Hr.
    destruct o as [r'|]; [|done]. destruct (IH r' eq_refl) as [fuel Hloop].
    exists (S fuel). rewrite crawl_unfold, bool_decide_eq_false_2, Hget, Hloop by done.
    by rewrite Hr.
  - intros url b st r [= <-]. by exists 0.
  - intros url b link links st st' o Ht _ IH r ->. destruct (IH r eq_refl) as [fuel Hloop].
    exists fuel. by rewrite for_each_link, Ht.
  - intros url b link links st e Ht Hj r [= <-]. exists 0.
    by rewrite for_each_link, Ht, Hj.
  - intros url b link links st href st' o Ht Hj Hs _ IH r ->.
    destruct (IH r eq_refl) as [fuel Hloop]. exists fuel.
    by rewrite for_each_link, Ht, Hj, Hs.
  - intros url b link links st href st1 st' o Ht Hj Hs _ IHc _ IHl r ->.
    destruct (IHc (Ok tt) eq_refl) as [f1 Hc]. destruct (IHl r eq_refl) as [f2 Hloop].
    exists (f1 `max` f2). rewrite for_each_link, Ht, Hj, Hs.
    rewrite (crawl_fuel_mono f1 (f1 `max` f2) _ _ _ _ _ ltac:(lia) Hc).
    eapply for_each_fuel_mono; [|exact Hloop].
    intros u b0 st0 st0' r0. apply crawl_fuel_mono. lia.
  - done.
Qed.

(** Every run that returned is the outcome of [crawl] for some fuel. *)
Lemma crawl_of_crawl_run (url : string) (base_url : option string)
    (st st' : state) (r : result unit) :
  crawl_run url base_url st st' (Some r) ->
  ∃ fuel, crawl fuel url base_url st = (st', Some r).
Proof. intros Hrun. by eapply crawl_of_crawl_run_some. Qed.

(** *** Invariants of a crawl

    A state property kept by the three kinds of step a crawl takes (a failed
    request, a delivered and indexed page, a report on [stdout]) is kept by
    the whole crawl. *)
Section Invariant.

Variable I : state -> Prop.
Hypothesis I_fetch_error : ∀ url e st,
  url ∉ visited st -> requests_get url = Raise e -> I st ->
  I (printed (error_line url e) (entered url st)).
Hypothesis I_page : ∀ url text st,
  url ∉ visited st -> requests_get url = Ok text -> I st ->
  I (indexed url (get_text text) (entered url st)).
Hypothesis I_printed : ∀ line st, I st -> I (printed line st).

Lemma crawl_run_invariant (url : string) (base_url : option string)
    (st st' : state) (o : option (result unit)) :
  crawl_run url base_url st st' o -> I st -> I st'.
Proof.
  revert url base_url st st' o.
  apply (crawl_run_mut requests_get get_text find_all_a urljoin
    (fun _ _ st st' _ => I st -> I st')
    (fun _ _ _ st st' _ => I st -> I st')); eauto.
  intros url b st text st' [[[]|e]|] Hv Hget _ IH Hst; simpl; eauto.
Qed.

Lemma links_run_invariant (url : string) (base_url : option string)
    (links : list (option string)) (st st' : state) (o : option (result unit)) :
  links_run url base_url links st st' o -> I st -> I st'.
Proof.
  revert url base_url links st st' o.
  apply (links_run_mut requests_get get_text find_all_a urljoin
    (fun _ _ st st' _ => I st -> I st')
    (fun _ _ _ st st' _ => I st -> I st')); eauto.
  intros url b st text st' [[[]|e]|] Hv Hget _ IH Hst; simpl; eauto.
Qed.

End Invariant.

Lemma crawl_run_grows (url : string) (base_url : option string)
    (st st' : state) (o : option (result unit)) :
  crawl_run url base_url st st' o ->
  visited st ⊆ visited st' ∧
  requests st `prefix_of` requests st' ∧
  stdout st `prefix_of` stdout st'.
Proof.
  intros Hrun.
  apply (crawl_run_invariant
    (fun s => visited st ⊆ visited s ∧ requests st `prefix_of` requests s ∧
              stdout st `prefix_of` stdout s)) in Hrun; [done | .. | done].
  - intros u e s _ _ (Hv & Hr & Ho); simpl. split_and!.
    + set_solver.
    + by apply prefix_app_r.
    + by apply prefix_app_r.
  - intros u text s _ _ (Hv & Hr & Ho); simpl. split_and!.
    + set_solver.
    + by apply prefix_app_r.
    + done.
  - intros line s (Hv & Hr & Ho); simpl. split_and!; [done | done | by apply prefix_app_r].
Qed.

Lemma links_run_grows (url : string) (base_url : option string)
    (links : list (option string)) (st st' : state) (o : option (result unit)) :
  links_run url base_url links st st' o ->
  visited st ⊆ visited st' ∧
  requests st `prefix_of` requests st' ∧
  stdout st `prefix_of` stdout st'.
Proof.
  intros Hrun.
  apply (links_run_invariant
    (fun s => visited st ⊆ visited s ∧ requests st `prefix_of` requests s ∧
              stdout st `prefix_of` stdout s)) in Hrun; [done | .. | done].
  - intros u e s _ _ (Hv & Hr & Ho); simpl. split_and!.
    + set_solver.
    + by apply prefix_app_r.
    + by apply prefix_app_r.
  - intros u text s _ _ (Hv & Hr & Ho); simpl. split_and!.
    + set_solver.
    + by apply prefix_app_r.
    + done.
  - intros line s (Hv & Hr & Ho); simpl. split_and!; [done | done | by apply prefix_app_r].
Qed.

(** The URL of a call is visited when the call returns. *)
Lemma crawl_run_visited (url : string) (base_url : option string)
    (st st' : state) (r : result unit) :
  crawl_run url base_url st st' (Some r) -> url ∈ visited st'.
Proof.
  intros Hrun. inversion Hrun as [| | |u b s text s' o Hv Hget Hloop]; subst.
  - done.
  - simpl. set_solver.
  - assert (url ∈ visited s') as Hin.
    { apply links_run_grows in Hloop as [Hsub _]. apply Hsub. simpl. set_solver. }
    by destruct o as [[[]|e]|].
Qed.

(** *** The invariants are kept *)

Lemma requests_ok_entered (url : string) (st : state) :
  url ∉ visited st -> requests_ok st -> requests_ok (entered url st).
Proof.
  intros Hv [Hnd Hsub]. split; simpl.
  - apply NoDup_app. split_and!; [done | | apply NoDup_singleton].
    intros u Hu Hu'. apply list_elem_of_singleton in Hu' as ->. by apply Hv, Hsub.
  - intros u Hu. apply elem_of_app in Hu as [Hu|Hu].
    + apply Hsub in Hu. set_solver.
    + apply list_elem_of_singleton in Hu. set_solver.
Qed.

Lemma requests_ok_crawl_run (url : string) (base_url : option string)
    (st st' : state) (o : option (result unit)) :
  crawl_run url base_url st st' o -> requests_ok st -> requests_ok st'.
Proof.
  apply (crawl_run_invariant requests_ok).
  - intros u e s Hv _ Hok. by apply (requests_ok_entered u s).
  - intros u text s Hv _ Hok. by apply (requests_ok_entered u s).
  - done.
Qed.

Lemma index_in_visited_crawl_run (url : string) (base_url : option string)
    (st st' : state) (o : option (result unit)) :
  crawl_run url base_url st st' o -> index_in_visited st -> index_in_visited st'.
Proof.
  apply (crawl_run_invariant index_in_visited); unfold index_in_visited; simpl.
  - intros u e s _ _ Hok k Hk. apply Hok in Hk. set_solver.
  - intros u text s _ _ Hok k Hk. rewrite keys_dict_set in Hk.
    case_bool_decide; [apply Hok in Hk; set_solver|].
    apply elem_of_app in Hk as [Hk|Hk].
    + apply Hok in Hk. set_solver.
    + apply list_elem_of_singleton in Hk. set_solver.
  - done.
Qed.

Lemma index_ok_crawl_run (url : string) (base_url : option string)
    (st st' : state) (o : option (result unit)) :
  crawl_run url base_url st st' o ->
  index_ok requests_get get_text st -> index_ok requests_get get_text st'.
Proof.
  apply (crawl_run_invariant (index_ok requests_get get_text)); unfold index_ok; simpl.
  - intros u e s _ Hget Hok k. rewrite Hok.
    destruct (decide (k = u)) as [->|Hne].
    + rewrite Hget. rewrite (bool_decide_eq_true_2 (u ∈ requests s ++ [u])); [|set_solver].
      by case_bool_decide.
    + case_bool_decide as H1; case_bool_decide as H2; try done; set_solver.
  - intros u text s _ Hget Hok k. rewrite dict_get_set.
    destruct (String.eqb k u) eqn:E.
    + apply String.eqb_eq in E as ->. rewrite Hget.
      rewrite bool_decide_eq_true_2; [done | set_solver].
    + apply String.eqb_neq in E. rewrite Hok.
      case_bool_decide as H1; case_bool_decide as H2; try done; set_solver.
  - done.
Qed.

Lemma keys_NoDup_crawl_run (url : string) (base_url : option string)
    (st st' : state) (o : option (result unit)) :
  crawl_run url base_url st st' o -> NoDup (keys (index st)) -> NoDup (keys (index st')).
Proof.
  apply (crawl_run_invariant (fun s => NoDup (keys (index s)))); simpl; [done | | done].
  intros u text s _ _ Hnd. by apply NoDup_keys_dict_set.
Qed.

(** *** [search] and [print_results] only read the crawler *)

Lemma search_run (lower : string -> string) (keyword : string) (st : state) :
  search lower keyword st = (st, Some (Ok (search_loop lower keyword (index st)))).
Proof. reflexivity. Qed.

Lemma for_each_print (f : string -> string) (results : list string) (st : state) :
  for_each results (fun r => print (f r)) st =
  (mkState (index st) (visited st) (stdout st ++ map f results) (requests st), Some (Ok tt)).
Proof.
  revert st. induction results as [|r results IH]; intros st; simpl.
  - rewrite app_nil_r. by destruct st.
  - unfold bind, print at 1. rewrite IH. simpl. by rewrite <- app_assoc.
Qed.

Lemma print_results_run (results : list string) (st : state) :
  ∃ lines, print_results results st =
           (mkState (index st) (visited st) (stdout st ++ lines) (requests st), Some (Ok tt)).
Proof.
  destruct results as [|r results].
  - by exists ["No results found."].
  - exists ("Search results:" :: map (fun r => "- " +:+ r) (r :: results)).
    unfold print_results, bind, print at 1.
    rewrite (for_each_print (fun r => "- " +:+ r)). simpl. by rewrite <- app_assoc.
Qed.

(** ** The claims on [crawl] *)

(** C1. Dedup: along any crawl, whatever pages and links the adapter
    returns, [requests.get] never receives the same URL twice, because every
    URL is put into [self.visited] before it is requested.  The invariant
    [requests_ok] (no duplicate request, every requested URL visited) holds
    of a fresh crawler and is kept by every call of [crawl], whether the call
    has returned or is cut off at any depth. *)
Theorem crawl_requests_at_most_once
    (fuel : nat) (url : string) (base_url : option string)
    (st st' : state) (o : option (result unit)) :
  requests_ok st ->
  crawl fuel url base_url st = (st', o) ->
  NoDup (requests st') ∧ (∀ u, u ∈ requests st' -> u ∈ visited st').
Proof.
  intros Hok Hrun. apply crawl_run_of_crawl in Hrun as [_ Hrun].
  by apply (requests_ok_crawl_run _ _ _ _ _ Hrun).
Qed.

(** C6. A call of [crawl] on a URL that is already in [self.visited]
    returns at once: no request, nothing printed, crawler unchanged. *)
Theorem crawl_visited_noop
    (fuel : nat) (url : string) (base_url : option string) (st : state) :
  url ∈ visited st ->
  crawl (S fuel) url base_url st = (st, Some (Ok tt)).
Proof.
  intros Hv. rewrite crawl_unfold. by rewrite bool_decide_eq_true_2.
Qed.

(** C5. When [requests.get(url)] raises, [crawl] returns normally; the URL
    is marked visited and was requested once, the index is untouched and
    exactly one line [Error crawling <url>: <message>] is printed.  The loop
    of a parent page that reached [url] through a link goes on with its
    remaining links from that state. *)
Theorem crawl_fetch_error
    (fuel : nat) (url : string) (base_url : option string) (st : state) (e : string) :
  url ∉ visited st ->
  requests_get url = Raise e ->
  let st' := {| index := index st;
                visited := {[url]} ∪ visited st;
                stdout := stdout st ++ ["Error crawling " +:+ url +:+ ": " +:+ e];
                requests := requests st ++ [url] |} in
  crawl (S fuel) url base_url st = (st', Some (Ok tt)) ∧
  ∀ parent parent_base h links,
    h ≠ "" ->
    urljoin (py_or parent_base parent) h = Ok url ->
    startswith url (py_or parent_base parent) = true ->
    for_each (Some h :: links) (visit_link (crawl (S fuel)) parent parent_base) st =
    for_each links (visit_link (crawl (S fuel)) parent parent_base) st'.
Proof.
  intros Hv Hget st'.
  assert (∀ b, crawl (S fuel) url b st = (st', Some (Ok tt))) as Hrun.
  { intros b. rewrite crawl_unfold, bool_decide_eq_false_2, Hget; done. }
  split; [done|].
  intros parent pb h links Hh Hj Hs.
  rewrite for_each_link, (truthy_nonempty h Hh). simpl default.
  by rewrite Hj, Hs, Hrun.
Qed.

(** C9. The keys of [self.index] are always members of [self.visited]:
    true of a fresh crawler, and kept by [crawl] (at every depth at which a
    crawl may be cut off, and when it returns), by [search] and by
    [print_results]. *)
Theorem index_keys_subset_visited :
  index_in_visited init ∧
  (∀ fuel url base_url st st' o,
     index_in_visited st ->
     crawl fuel url base_url st = (st', o) -> index_in_visited st') ∧
  (∀ lower keyword st st' o,
     index_in_visited st ->
     search lower keyword st = (st', o) -> index_in_visited st') ∧
  (∀ results st st' o,
     index_in_visited st ->
     print_results results st = (st', o) -> index_in_visited st').
Proof.
  split_and!.
  - intros u Hu. by apply elem_of_nil in Hu.
  - intros fuel url b st st' o Hok Hrun. apply crawl_run_of_crawl in Hrun as [_ Hrun].
    by apply (index_in_visited_crawl_run _ _ _ _ _ Hrun).
  - intros lower k st st' o Hok Hrun. rewrite search_run in Hrun.
    by injection Hrun as <- _.
  - intros results st st' o Hok Hrun.
    destruct (print_results_run results st) as [lines Hp].
    rewrite Hp in Hrun. by injection Hrun as <- _.
Qed.

(** C4. Index completeness: after a crawl that started from a state where
    the index mirrors the requests made so far (a fresh crawler, or the
    result of earlier crawls), every requested URL whose page was delivered
    is in the index with the text extracted from that page; every requested
    URL whose request raised is not in the index but is in [self.visited];
    and every key of the index was requested and delivered. *)
Theorem crawl_index_complete
    (fuel : nat) (url : string) (base_url : option string)
    (st st' : state) (o : option (result unit)) :
  index_ok requests_get get_text st ->
  requests_ok st ->
  crawl fuel url base_url st = (st', o) ->
  (∀ u text, u ∈ requests st' -> requests_get u = Ok text ->
             dict_get u (index st') = Some (get_text text)) ∧
  (∀ u e, u ∈ requests st' -> requests_get u = Raise e ->
          dict_get u (index st') = None ∧ (u ∉ keys (index st')) ∧ u ∈ visited st') ∧
  (∀ u, u ∈ keys (index st') ->
        u ∈ requests st' ∧ ∃ text, requests_get u = Ok text).
Proof.
  intros Hidx Hreq Hrun. apply crawl_run_of_crawl in Hrun as [_ Hrun].
  apply (index_ok_crawl_run _ _ _ _ _ Hrun) in Hidx.
  apply (requests_ok_crawl_run _ _ _ _ _ Hrun) in Hreq as [_ Hsub].
  split_and!.
  - intros u text Hu Hget. by rewrite Hidx, bool_decide_eq_true_2, Hget.
  - intros u e Hu Hget.
    assert (dict_get u (index st') = None) as Hnone.
    { by rewrite Hidx, bool_decide_eq_true_2, Hget. }
    split_and!; [done | | by apply Hsub].
    rewrite elem_of_keys_dict_get, Hnone. by intros [? ?].
  - intros u Hu. apply elem_of_keys_dict_get in Hu as [v Hv].
    rewrite Hidx in Hv. case_bool_decide; [|done].
    split; [done|]. destruct (requests_get u) as [text|e]; [by exists text | done].
Qed.

(** *** Termination *)

Lemma size_unvisited_entered (U V : gset string) (u : string) :
  u ∈ U -> u ∉ V -> size (U ∖ ({[u]} ∪ V)) < size (U ∖ V).
Proof.
  intros HU HV. apply subset_size. split; [set_solver|].
  intros Hsub. assert (u ∈ U ∖ ({[u]} ∪ V)) as Hin by set_solver. set_solver.
Qed.

Lemma size_unvisited_mono (U V V' : gset string) :
  V ⊆ V' -> size (U ∖ V') ≤ size (U ∖ V).
Proof. intros Hsub. apply subseteq_size. set_solver. Qed.

(** The link loop of a page is not cut off, provided no recursive call it
    makes is. *)
Lemma for_each_returns (U : gset string) (fuel : nat) (url : string)
    (base_url : option string) (text : string) :
  requests_get url = Ok text ->
  (∀ u b st, child (url, base_url) (u, b) -> size (U ∖ visited st) < fuel ->
             ∃ st', crawl fuel u b st = (st', Some (Ok tt))) ->
  ∀ links st,
    links ⊆ find_all_a text ->
    size (U ∖ visited st) < fuel ->
    ∃ st' r, for_each links (visit_link (crawl fuel) url base_url) st = (st', Some r).
Proof.
  intros Hget IH links. induction links as [|link links IHl]; intros st Hsub Hsize.
  - by exists st, (Ok tt).
  - rewrite for_each_link.
    assert (links ⊆ find_all_a text) as Hsub' by set_solver.
    destruct (truthy link) eqn:Ht; [|by apply IHl].
    destruct (truthy_inv link Ht) as (h & -> & Hh). simpl default.
    destruct (urljoin _ _) as [href|e] eqn:Hj; [|by eauto].
    destruct (startswith _ _) eqn:Hs; [|by apply IHl].
    destruct (IH href (Some (py_or base_url url)) st) as [st1 Hc]; [|done|].
    { eapply child_link; eauto. apply Hsub. by left. }
    rewrite Hc. apply IHl; [done|].
    apply crawl_run_of_crawl in Hc as [_ Hc]. apply crawl_run_grows in Hc as [Hv _].
    pose proof (size_unvisited_mono U _ _ Hv). lia.
Qed.

Lemma crawl_returns (U : gset string) (fuel : nat) :
  ∀ url base_url st,
    (∀ u b, reachable (url, base_url) (u, b) -> u ∈ U) ->
    size (U ∖ visited st) < fuel ->
    ∃ st', crawl fuel url base_url st = (st', Some (Ok tt)).
Proof.
  induction fuel as [|fuel IH]; intros url base_url st Hreach Hsize; [lia|].
  rewrite crawl_unfold. case_bool_decide as Hv; [by eauto|].
  destruct (requests_get url) as [text|e] eqn:Hget; [|by eauto].
  assert (url ∈ U) as HU by (apply (Hreach url base_url); apply rtc_refl).
  destruct (for_each_returns U fuel url base_url text Hget) with
    (links := find_all_a text) (st := indexed url (get_text text) (entered url st))
    as (st' & r & Hloop).
  - intros u b st0 Hchild Hsize0. apply IH; [|done].
    intros u' b' Hr. apply (Hreach u' b'). by eapply rtc_l.
  - done.
  - simpl. pose proof (size_unvisited_entered U (visited st) url HU Hv). lia.
  - rewrite Hloop. destruct r as [[]|e]; by eauto.
Qed.

(** C7. Every crawl terminates.  If the URLs reachable from the seed through
    in-scope links all lie in a finite set [U], then the call returns as soon
    as the recursion may go deeper than the number of URLs of [U] not yet
    visited: no other bound is needed, and a larger bound gives the same
    final state.  The visited set only grows.  A cycle in the link graph
    changes nothing (see the witness, two pages linking to each other). *)
Theorem crawl_terminates
    (U : gset string) (fuel : nat) (url : string) (base_url : option string) (st : state) :
  (∀ u b, reachable (url, base_url) (u, b) -> u ∈ U) ->
  size (U ∖ visited st) < fuel ->
  ∃ st', crawl fuel url base_url st = (st', Some (Ok tt)) ∧
         visited st ⊆ visited st' ∧
         (∀ fuel', fuel ≤ fuel' -> crawl fuel' url base_url st = (st', Some (Ok tt))).
Proof.
  intros Hreach Hsize.
  destruct (crawl_returns U fuel url base_url st Hreach Hsize) as [st' Hrun].
  exists st'. split_and!; [done | |].
  - apply crawl_run_of_crawl in Hrun as [_ Hrun]. by apply crawl_run_grows in Hrun as [? _].
  - intros fuel' Hle. by apply (crawl_fuel_mono fuel fuel').
Qed.

(** *** Scope containment *)

Lemma for_each_app {A} (pre post : list A) (body : A -> M unit) (st : state) :
  for_each (pre ++ post) body st =
  match for_each pre body st with
  | (st1, Some (Ok _)) => for_each post body st1
  | (st1, Some (Raise e)) => (st1, Some (Raise e))
  | (st1, None) => (st1, None)
  end.
Proof.
  revert st. induction pre as [|x pre IH]; intros st; simpl; [done|].
  unfold bind. destruct (body x st) as [st0 [[[]|e]|]]; [apply IH | done | done].
Qed.

Lemma startswith_py_or_scope (u scope href : string) :
  startswith u (py_or (Some scope) href) = true -> startswith u scope = true.
Proof. destruct scope; [intros _; apply startswith_empty | done]. Qed.

(** Whatever a crawl requests is the URL it was called on or a URL that has
    the scope string of the call as a literal prefix. *)
Lemma crawl_run_requests_in_scope (url : string) (base_url : option string)
    (st st' : state) (o : option (result unit)) :
  crawl_run url base_url st st' o ->
  ∀ u, u ∈ requests st' ->
       u ∈ requests st ∨ u = url ∨ startswith u (py_or base_url url) = true.
Proof.
  revert url base_url st st' o.
  apply (crawl_run_mut requests_get get_text find_all_a urljoin
    (fun url base_url st st' _ =>
       ∀ u, u ∈ requests st' ->
            u ∈ requests st ∨ u = url ∨ startswith u (py_or base_url url) = true)
    (fun url base_url _ st st' _ =>
       ∀ u, u ∈ requests st' ->
            u ∈ requests st ∨ startswith u (py_or base_url url) = true)).
  - intros; by left.
  - intros; by left.
  - intros url b st e _ _ u Hu; simpl in Hu.
    apply elem_of_app in Hu as [Hu|Hu]; [by left|].
    apply list_elem_of_singleton in Hu. by right; left.
  - intros url b st text st' o _ _ _ IH u Hu.
    assert (u ∈ requests st') as Hu' by by destruct o as [[[]|e]|].
    apply IH in Hu' as [Hu'|Hu']; [|by right; right]. simpl in Hu'.
    apply elem_of_app in Hu' as [Hu'|Hu']; [by left|].
    apply list_elem_of_singleton in Hu'. by right; left.
  - intros; by left.
  - done.
  - intros; by left.
  - done.
  - intros url b link links st href st1 st' o _ _ Hs _ IHc _ IHl u Hu.
    apply IHl in Hu as [Hu|Hu]; [|by right].
    apply IHc in Hu as [Hu|[->|Hu]]; [by left | by right |].
    right. by apply startswith_py_or_scope in Hu.
  - intros url b link links st href st1 _ _ Hs _ IHc u Hu.
    apply IHc in Hu as [Hu|[->|Hu]]; [by left | by right |].
    right. by apply startswith_py_or_scope in Hu.
Qed.

(** C2 (amended). Scope containment, link by link.  Take a page that was
    delivered, and a link with a non-empty [href] that the loop over the
    page's links reaches, that is, the loop ran through the links before it
    without a raised [urljoin].  The link is resolved with [urljoin] against
    the scope string [base_url or url].  If the resolution raises, the loop
    ends there and the exception is reported for the page.  Otherwise
    [crawl] is called on the resolved URL, with the same scope string, when
    that URL starts with the scope string, and the link changes nothing when
    it does not; the loop then goes on with the remaining links.  The
    test is on strings only, so [https://example.com.evil.com] is inside the
    scope [https://example.com].  Over the whole call, every URL requested
    is the URL of the call or starts with its scope string; in a crawl
    started without [base_url] on a crawler that has made no request, a URL
    that does not start with the seed is never requested. *)
Theorem crawl_scope_containment
    (fuel : nat) (url : string) (base_url : option string) (st st1 : state)
    (text : string) (pre post : list (option string)) (h : string) :
  url ∉ visited st ->
  requests_get url = Ok text ->
  find_all_a text = pre ++ Some h :: post ->
  h ≠ "" ->
  for_each pre (visit_link (crawl fuel) url base_url)
           (indexed url (get_text text) (entered url st)) = (st1, Some (Ok tt)) ->
  let scope := py_or base_url url in
  let rest := fun s =>
    let '(st', o) := for_each post (visit_link (crawl fuel) url base_url) s in
    (reported url o st', caught o) in
  crawl (S fuel) url base_url st =
    match urljoin scope h with
    | Raise e => (printed (error_line url e) st1, Some (Ok tt))
    | Ok href =>
        if startswith href scope then
          match crawl fuel href (Some scope) st1 with
          | (st2, Some _) => rest st2
          | (st2, None) => (st2, None)
          end
        else rest st1
    end
  ∧ (∀ fuel' st' o, crawl fuel' url base_url st = (st', o) ->
       ∀ u, u ∈ requests st' ->
            u ∈ requests st ∨ u = url ∨ startswith u scope = true)
  ∧ (base_url = None -> requests st = [] ->
     ∀ fuel' st' o, crawl fuel' url base_url st = (st', o) ->
       ∀ u, startswith u url = false -> u ∉ requests st')
  ∧ startswith "https://example.com.evil.com" "https://example.com" = true.
Proof.
  intros Hv Hget Hlinks Hh Hpre scope rest.
  assert (∀ fuel' st' o, crawl fuel' url base_url st = (st', o) ->
            ∀ u, u ∈ requests st' ->
                 u ∈ requests st ∨ u = url ∨ startswith u scope = true) as Hscope.
  { intros fuel' st' o Hrun. apply crawl_run_of_crawl in Hrun as [_ Hrun].
    by eapply crawl_run_requests_in_scope. }
  split_and!.
  - rewrite crawl_unfold, bool_decide_eq_false_2, Hget, Hlinks by done.
    rewrite for_each_app, Hpre, for_each_link, (truthy_nonempty h Hh). simpl default.
    fold scope. destruct (urljoin scope h) as [href|e]; [|done].
    destruct (startswith href scope); [|done].
    destruct (crawl fuel href (Some scope) st1) as [st2 o2] eqn:Hc.
    apply crawl_run_of_crawl in Hc as [[->| ->] _]; done.
  - exact Hscope.
  - intros Hb Hreq fuel' st' o Hrun u Hu Hin.
    apply (Hscope _ _ _ Hrun) in Hin as [Hin|[->|Hin]].
    + rewrite Hreq in Hin. by apply elem_of_nil in Hin.
    + by rewrite startswith_refl in Hu.
    + unfold scope in Hin. rewrite Hb in Hin. simpl in Hin. congruence.
  - reflexivity.
Qed.

End EngineFacts.

(** ** The claims on [search] *)

Lemma str_in_unfold (k t : string) :
  str_in k t =
  String.prefix k t || match t with EmptyString => false | String _ t' => str_in k t' end.
Proof. by destruct t. Qed.

Lemma str_in_correct (k t : string) : str_in k t = true ↔ substring_of k t.
Proof.
  unfold substring_of. induction t as [|c t IH]; rewrite str_in_unfold.
  - rewrite orb_false_r. fold (startswith "" k). rewrite startswith_correct.
    split.
    + intros [rest Hr]. by exists "", rest.
    + intros (pre & post & Hr). destruct pre; [by exists post | discriminate].
  - rewrite orb_true_iff. fold (startswith (String c t) k).
    rewrite startswith_correct, IH. split.
    + intros [[rest Hr]|(pre & post & Hr)].
      * by exists "", rest.
      * exists (String c pre), post. simpl. by rewrite Hr.
    + intros (pre & post & Hr). destruct pre as [|d pre]; simpl in Hr.
      * left. by exists post.
      * right. exists pre, post. by injection Hr.
Qed.


(** *** Letter case on ASCII strings *)

Lemma elem_of_all_ascii (c : ascii) : c ∈ all_ascii.
Proof.
  rewrite <- (ascii_nat_embedding c). apply list_elem_of_fmap.
  exists (nat_of_ascii c). split; [done|].
  apply elem_of_seq. pose proof (nat_ascii_bounded c). lia.
Qed.

(** Lower-casing identifies exactly the pairs of the table of letters:
    checked on every pair of characters. *)
Lemma same_letter_table :
  forallb (fun c =>
    forallb (fun d =>
      Bool.eqb (same_letter c d) (Ascii.eqb (ascii_lower_char c) (ascii_lower_char d)))
      all_ascii) all_ascii = true.
Proof. vm_compute. reflexivity. Qed.

Lemma same_letter_correct (c d : ascii) :
  same_letter c d = true ↔ ascii_lower_char c = ascii_lower_char d.
Proof.
  pose proof same_letter_table as Ht.
  rewrite forallb_forall in Ht.
  specialize (Ht c (proj1 (list_elem_of_In _ _) (elem_of_all_ascii c))).
  rewrite forallb_forall in Ht.
  specialize (Ht d (proj1 (list_elem_of_In _ _) (elem_of_all_ascii d))).
  apply Bool.eqb_prop in Ht. rewrite Ht. apply Ascii.eqb_eq.
Qed.

Lemma ci_eqb_correct (w k : string) :
  ci_eqb w k = true ↔ ascii_lower w = ascii_lower k.
Proof.
  revert k. induction w as [|c w IH]; intros [|d k]; simpl; try done.
  rewrite andb_true_iff, same_letter_correct, IH. split.
  - by intros [-> ->].
  - intros Heq. by injection Heq.
Qed.

Lemma ascii_lower_app (a b : string) :
  ascii_lower (a +:+ b) = ascii_lower a +:+ ascii_lower b.
Proof. induction a as [|c a IH]; simpl; [done | by rewrite IH]. Qed.

Lemma ascii_lower_app_inv (t a b : string) :
  ascii_lower t = a +:+ b ->
  ∃ t1 t2, t = t1 +:+ t2 ∧ ascii_lower t1 = a ∧ ascii_lower t2 = b.
Proof.
  revert t. induction a as [|c a IH]; intros t Ht.
  - by exists "", t.
  - destruct t as [|d t]; [discriminate|]. simpl in Ht. injection Ht as Hc Ht.
    destruct (IH t Ht) as (t1 & t2 & -> & H1 & H2).
    exists (String d t1), t2. simpl. by rewrite H1, Hc.
Qed.

(** On ASCII strings the test [keyword.lower() in text.lower()] decides
    occurrence up to case. *)
Lemma str_in_ascii_lower_correct (k t : string) :
  str_in (ascii_lower k) (ascii_lower t) = true ↔ ci_substring_of k t.
Proof.
  rewrite str_in_correct. unfold ci_substring_of, substring_of. split.
  - intros (pre & post & Ht).
    apply ascii_lower_app_inv in Ht as (t1 & t23 & -> & _ & Ht).
    apply ascii_lower_app_inv in Ht as (w & t3 & -> & Hw & _).
    exists w. split; [by exists t1, t3 | by apply ci_eqb_correct].
  - intros (w & (pre & post & ->) & Hw). apply ci_eqb_correct in Hw.
    exists (ascii_lower pre), (ascii_lower post). by rewrite !ascii_lower_app, Hw.
Qed.

Lemma ascii_lower_char_idem (c : ascii) :
  ascii_lower_char (ascii_lower_char c) = ascii_lower_char c.
Proof. destruct c as [[] [] [] [] [] [] [] []]; reflexivity. Qed.

Lemma ascii_lower_idem (s : string) : ascii_lower (ascii_lower s) = ascii_lower s.
Proof.
  induction s as [|c s IH]; [done|]. simpl. by rewrite ascii_lower_char_idem, IH.
Qed.

Lemma is_ascii_lower_char (c : ascii) :
  (nat_of_ascii (ascii_lower_char c) <? 128)%nat = (nat_of_ascii c <? 128)%nat.
Proof. destruct c as [[] [] [] [] [] [] [] []]; reflexivity. Qed.

Lemma is_ascii_lower (s : string) : is_ascii (ascii_lower s) = is_ascii s.
Proof.
  induction s as [|c s IH]; [done|]. simpl. by rewrite is_ascii_lower_char, IH.
Qed.


Lemma lower_on_ascii_idem (lower : string -> string) (s : string) :
  lower_on_ascii lower -> is_ascii s = true -> lower (lower s) = lower s.
Proof.
  intros Hl Hs. rewrite (Hl s Hs). rewrite Hl by (by rewrite is_ascii_lower).
  apply ascii_lower_idem.
Qed.


(** [mock_lower] lower-cases ASCII strings as [str.lower] does. *)
Lemma mock_lower_on_ascii : lower_on_ascii mock_lower.
Proof.
  intros s Hs. unfold mock_lower.
  destruct (String.eqb_spec s capital_alpha_sigma) as [->|_]; [discriminate|].
  destruct (String.eqb_spec s capital_alpha_sigma_alpha) as [->|_]; [discriminate|].
  reflexivity.
Qed.

Section SearchFacts.

Variable lower : string -> string.

Local Abbreviation search_loop := (search_loop lower).
Local Abbreviation search := (search lower).

Lemma search_loop_acc (keyword : string) (d : dict) (acc : list string) :
  fold_left
    (fun results '(url, text) =>
       if str_in (lower keyword) (lower text) then results ++ [url] else results)
    d acc
  = acc ++ search_loop keyword d.
Proof.
  unfold search_loop at 1.
  revert acc. induction d as [|[u t] d IH]; intros acc; simpl.
  - by rewrite app_nil_r.
  - rewrite IH. rewrite (IH (if str_in _ _ then _ else _)).
    destruct (str_in _ _); [by rewrite <- app_assoc | done].
Qed.

Lemma search_loop_cons (keyword u t : string) (d : dict) :
  search_loop keyword ((u, t) :: d) =
  (if str_in (lower keyword) (lower t) then [u] else []) ++ search_loop keyword d.
Proof.
  unfold search_loop at 1.
  simpl. rewrite search_loop_acc. by destruct (str_in _ _).
Qed.


Lemma search_loop_sublist (keyword : string) (d : dict) :
  search_loop keyword d `sublist_of` keys d.
Proof.
  induction d as [|[u t] d IH]; [done|].
  rewrite search_loop_cons. simpl.
  destruct (str_in _ _); simpl; [by apply sublist_skip | by apply sublist_cons].
Qed.



(** C8. [search] has no effect: it returns in the state it was called in,
    so the index and the visited set are unchanged, and a second identical
    call returns the same list. *)
Theorem search_pure_idempotent (keyword : string) (st : state) :
  ∃ results,
    search keyword st = (st, Some (Ok results)) ∧
    (let! r1 := search keyword in
     let! r2 := search keyword in
     ret (r1, r2)) st = (st, Some (Ok (results, results))).
Proof. exists (search_loop keyword (index st)). split; reflexivity. Qed.

(** C10. The list returned by [search] has no duplicates, contains only
    keys of the index, and lists them in the iteration order of the index:
    it is a subsequence of the keys.  A [dict] has no duplicate keys, which
    is the hypothesis [NoDup (keys (index st))]; it holds of a fresh crawler
    and [crawl] keeps it (lemma [crawl_keeps_keys_NoDup]). *)
Theorem search_results_ordered (keyword : string) (st : state) :
  NoDup (keys (index st)) ->
  ∃ results,
    search keyword st = (st, Some (Ok results)) ∧
    NoDup results ∧
    (∀ u, u ∈ results -> u ∈ keys (index st)) ∧
    results `sublist_of` keys (index st).
Proof.
  intros Hnd. exists (search_loop keyword (index st)).
  pose proof (search_loop_sublist keyword (index st)) as Hsub.
  split_and!; [reflexivity | by eapply sublist_NoDup | | done].
  intros u Hu. by eapply elem_of_sublist.
Qed.

End SearchFacts.

Lemma crawl_keeps_keys_NoDup
    (requests_get : string -> result string) (get_text : string -> string)
    (find_all_a : string -> list (option string))
    (urljoin : string -> string -> result string)
    (fuel : nat) (url : string) (base_url : option string)
    (st st' : state) (o : option (result unit)) :
  NoDup (keys (index st)) ->
  crawl requests_get get_text find_all_a urljoin fuel url base_url st = (st', o) ->
  NoDup (keys (index st')).
Proof.
  intros Hnd Hrun. apply crawl_run_of_crawl in Hrun as [_ Hrun].
  by apply (keys_NoDup_crawl_run _ _ _ _ _ _ _ _ _ Hrun).
Qed.

(** ** The claims on concrete sites *)

Lemma requests_ok_init : requests_ok init.
Proof. split; [constructor | intros u Hu; by apply elem_of_nil in Hu]. Qed.

Lemma index_ok_init (requests_get : string -> result string) (get_text : string -> string) :
  index_ok requests_get get_text init.
Proof. intros u. reflexivity. Qed.

Ltac by_computation := apply (bool_decide_unpack _); vm_compute; exact I.

(** On the endless site a crawl goes one page deeper with every unit of
    fuel and is cut off at every depth: it never returns. *)
Lemma endless_crawl_cut (fuel : nat) :
  ∀ rest base_url st,
    py_or base_url ("https://example.com" +:+ rest) = "https://example.com" ->
    (∀ v, v ∈ visited st ->
          String.length v < String.length ("https://example.com" +:+ rest)) ->
    ∃ st', endless_crawl fuel ("https://example.com" +:+ rest) base_url st = (st', None).
Proof.
  induction fuel as [|fuel IH]; intros rest b st Hscope Hlen; [by eexists|].
  unfold endless_crawl. rewrite crawl_unfold.
  rewrite bool_decide_eq_false_2.
  2:{ intros Hv. apply Hlen in Hv. by apply Nat.lt_irrefl in Hv. }
  unfold endless_get at 1. unfold endless_links at 1.
  rewrite for_each_link, Hscope.
  change (truthy _) with true. cbv iota.
  change (default "" (Some ?x)) with x.
  rewrite string_app_assoc.
  change (mock_urljoin _ ?h) with (Ok (A:=string) h). cbv iota beta.
  assert (startswith ("https://example.com" +:+ rest +:+ "/next") "https://example.com"
          = true) as ->.
  { apply startswith_correct. by eexists. }
  destruct (IH (rest +:+ "/next") (Some "https://example.com")
              (indexed ("https://example.com" +:+ rest) ("https://example.com" +:+ rest)
                       (entered ("https://example.com" +:+ rest) st))) as [st' Hcut].
  - reflexivity.
  - intros v Hv. rewrite <- string_app_assoc, string_length_app.
    change (String.length "/next") with 5.
    apply elem_of_union in Hv as [Hv|Hv].
    + apply elem_of_singleton in Hv as ->. lia.
    + apply Hlen in Hv. lia.
  - fold endless_crawl. rewrite Hcut. simpl. by eexists.
Qed.

Lemma endless_crawl_never_returns (fuel : nat) :
  (endless_crawl fuel "https://example.com" None init).2 = None.
Proof.
  destruct (endless_crawl_cut fuel "" None init) as [st' Hcut].
  - reflexivity.
  - intros v Hv. by apply elem_of_empty in Hv.
  - change ("https://example.com" +:+ "") with "https://example.com" in Hcut.
    by rewrite Hcut.
Qed.

(** Diamond: [/d] is reachable through [/b] and through [/c] and is
    requested once.  Endless site: however deep the crawl has gone, no URL
    was requested twice. *)
Lemma crawl_requests_at_most_once_witness :
  (∃ st',
     mock_crawl diamond_site 3 "https://example.com" None init = (st', Some (Ok tt)) ∧
     requests st' = ["https://example.com"; "https://example.com/b";
                     "https://example.com/d"; "https://example.com/c"] ∧
     NoDup (requests st') ∧
     (∀ u, u ∈ requests st' -> u ∈ visited st')) ∧
  (∀ fuel, NoDup (requests (endless_crawl fuel "https://example.com" None init).1)).
Proof.
  split.
  - eexists. split; [vm_compute; reflexivity|]. split; [reflexivity|].
    apply (crawl_requests_at_most_once
             (mock_get diamond_site) (mock_text diamond_site) (mock_links diamond_site)
             mock_urljoin 3 "https://example.com" None init _ (Some (Ok tt))).
    + exact requests_ok_init.
    + vm_compute. reflexivity.
  - intros fuel.
    destruct (endless_crawl fuel "https://example.com" None init) as [st' o] eqn:Hrun.
    exact (proj1 (crawl_requests_at_most_once endless_get (fun m => m) endless_links
                    mock_urljoin fuel "https://example.com" None init st' o
                    requests_ok_init Hrun)).
Defined.

(** A second call on a URL that was already entered does nothing. *)
Lemma crawl_visited_noop_witness :
  "https://example.com" ∈ visited (entered "https://example.com" init) ∧
  mock_crawl down_site 1 "https://example.com" None (entered "https://example.com" init)
  = (entered "https://example.com" init, Some (Ok tt)).
Proof.
  assert ("https://example.com" ∈ visited (entered "https://example.com" init)) as Hv
    by by_computation.
  split; [exact Hv|].
  exact (crawl_visited_noop (mock_get down_site) (mock_text down_site)
           (mock_links down_site) mock_urljoin 0 "https://example.com" None _ Hv).
Defined.

(** The seed does not load (scenario 3 of the specification). *)
Lemma crawl_fetch_error_witness :
  mock_crawl down_site 1 "https://example.com" None init =
  ({| index := [];
      visited := {["https://example.com"]} ∪ ∅;
      stdout := ["Error crawling https://example.com: Test Error"];
      requests := ["https://example.com"] |}, Some (Ok tt)).
Proof.
  refine (proj1 (crawl_fetch_error (mock_get down_site) (mock_text down_site)
           (mock_links down_site) mock_urljoin 0 "https://example.com" None init
           "Test Error" _ _)).
  - by_computation.
  - reflexivity.
Defined.

(** The index after crawling the example site (scenario 2). *)
Lemma crawl_index_complete_witness :
  ∃ st',
    mock_crawl example_site 2 "https://example.com" None init = (st', Some (Ok tt)) ∧
    index st' = [("https://example.com", "Welcome!");
                 ("https://example.com/about", "About Us")] ∧
    (∀ u, u ∈ keys (index st') ->
          u ∈ requests st' ∧ ∃ text, mock_get example_site u = Ok text).
Proof.
  eexists. split; [vm_compute; reflexivity|]. split; [reflexivity|].
  refine (proj2 (proj2 (crawl_index_complete
           (mock_get example_site) (mock_text example_site) (mock_links example_site)
           mock_urljoin 2 "https://example.com" None init _ (Some (Ok tt)) _ _ _))).
  - apply index_ok_init.
  - exact requests_ok_init.
  - vm_compute. reflexivity.
Defined.

Lemma index_keys_subset_visited_witness :
  ∃ st',
    mock_crawl example_site 2 "https://example.com" None init = (st', Some (Ok tt)) ∧
    index_in_visited st'.
Proof.
  eexists. split; [vm_compute; reflexivity|].
  destruct (index_keys_subset_visited
              (mock_get example_site) (mock_text example_site) (mock_links example_site)
              mock_urljoin) as (Hinit & Hcrawl & _).
  apply (Hcrawl 2 "https://example.com" None init _ (Some (Ok tt)) Hinit).
  vm_compute. reflexivity.
Defined.

(** The two pages of the cyclic site are all that is reachable. *)
Lemma cyclic_site_reachable (u : string) (b : option string) :
  reachable (mock_get cyclic_site) (mock_links cyclic_site) mock_urljoin
            ("https://example.com", None) (u, b) ->
  u ∈ ({["https://example.com"; "https://example.com/about"]} : gset string).
Proof.
  set (inv := fun c : string * option string =>
    (c.1 = "https://example.com" ∨ c.1 = "https://example.com/about") ∧
    (c.2 = None ∨ c.2 = Some "https://example.com")).
  assert (∀ c c', rtc (child (mock_get cyclic_site) (mock_links cyclic_site) mock_urljoin) c c' ->
                  inv c -> inv c') as Hinv.
  { induction 1 as [|c c1 c2 Hstep _ IH]; [done|]. intros Hc. apply IH. clear IH.
    destruct Hstep as [url base_url text h href Hget Hin Hh Hj Hs].
    destruct Hc as [[Hu|Hu] [Hb|Hb]]; simpl in Hu, Hb; subst url base_url;
      vm_compute in Hget; injection Hget as <-;
      apply list_elem_of_singleton in Hin; injection Hin as ->;
      vm_compute in Hj; injection Hj as <-;
      vm_compute in Hs; try discriminate; split; simpl; auto. }
  intros Hr. apply Hinv in Hr as [[Hu|Hu] _]; [..|split; simpl; auto];
    simpl in Hu; subst u; set_solver.
Qed.

(** Two pages linking to each other (scenario 4): the crawl returns with
    fuel 3, each page requested once. *)
Lemma crawl_terminates_witness :
  ∃ st',
    mock_crawl cyclic_site 3 "https://example.com" None init = (st', Some (Ok tt)) ∧
    requests st' = ["https://example.com"; "https://example.com/about"] ∧
    visited init ⊆ visited st'.
Proof.
  destruct (crawl_terminates
              (mock_get cyclic_site) (mock_text cyclic_site) (mock_links cyclic_site)
              mock_urljoin
              {["https://example.com"; "https://example.com/about"]}
              3 "https://example.com" None init)
    as (st' & Hrun & Hsub & _).
  - exact cyclic_site_reachable.
  - vm_compute. lia.
  - exists st'. split; [exact Hrun|]. split; [|exact Hsub].
    vm_compute in Hrun. injection Hrun as <-. reflexivity.
Defined.

(** The link to [example.com.evil.com] is followed from scope
    [https://example.com]; the link to [www.external.com], met first, is
    not. *)
Lemma crawl_scope_containment_witness :
  ∃ st',
    mock_crawl evil_site 2 "https://example.com" None init = (st', Some (Ok tt)) ∧
    requests st' = ["https://example.com"; "https://example.com.evil.com"] ∧
    (∀ u, u ∈ requests st' ->
          u ∈ requests init ∨ u = "https://example.com" ∨
          startswith u "https://example.com" = true) ∧
    ("https://www.external.com" ∉ requests st').
Proof.
  destruct (crawl_scope_containment
              (mock_get evil_site) (mock_text evil_site) (mock_links evil_site)
              mock_urljoin 1 "https://example.com" None init
              (indexed "https://example.com" "home" (entered "https://example.com" init))
              "https://example.com"
              [Some "https://www.external.com"] []
              "https://example.com.evil.com")
    as (_ & Hscope & Hout & _).
  - by_computation.
  - reflexivity.
  - reflexivity.
  - discriminate.
  - vm_compute. reflexivity.
  - eexists. split; [vm_compute; reflexivity|]. split; [reflexivity|]. split.
    + apply (Hscope 2 _ (Some (Ok tt))). vm_compute. reflexivity.
    + apply (Hout eq_refl eq_refl 2 _ (Some (Ok tt))); vm_compute; reflexivity.
Defined.

(** C2, as stated, fails.  On [broken_link_site] the home page is delivered
    and holds two links.  [urljoin] raises on the first, [http://[]: the
    exception leaves the loop and is caught by the [except] clause of the
    call.  The second link, [/about], resolves to a URL inside the scope, yet
    it is never resolved by the crawl, never crawled and never requested. *)
Lemma crawl_scope_counterexample :
  (∃ st',
     mock_crawl broken_link_site 2 "https://example.com" None init = (st', Some (Ok tt)) ∧
     mock_get broken_link_site "https://example.com" = Ok "https://example.com" ∧
     mock_links broken_link_site "https://example.com" = [Some "http://["; Some "/about"] ∧
     mock_urljoin "https://example.com" "/about" = Ok "https://example.com/about" ∧
     startswith "https://example.com/about" "https://example.com" = true ∧
     ("https://example.com/about" ∉ visited st') ∧
     requests st' = ["https://example.com"] ∧
     stdout st' = ["Error crawling https://example.com: Invalid IPv6 URL"]) ∧
  ¬ every_link_followed (mock_get broken_link_site) (mock_text broken_link_site)
      (mock_links broken_link_site) mock_urljoin.
Proof.
  split.
  - eexists. split; [vm_compute; reflexivity|].
    split_and!; try reflexivity. by_computation.
  - intros Hclaim.
    destruct (Hclaim 2 "https://example.com" None init
                (mkState [("https://example.com", "home")]
                         ({["https://example.com"]} ∪ ∅)
                         ["Error crawling https://example.com: Invalid IPv6 URL"]
                         ["https://example.com"])
                (Ok tt) "https://example.com" "/about")
      as (href & Hj & Hin).
    + vm_compute. reflexivity.
    + by_computation.
    + reflexivity.
    + by_computation.
    + discriminate.
    + vm_compute in Hj. injection Hj as <-.
      assert ("https://example.com/about" ∉
              ({["https://example.com"]} ∪ ∅ : gset string)) as Hnot by by_computation.
      apply Hnot, Hin. reflexivity.
Qed.

(** Scenario 5 of the specification, with a keyword in capitals. *)
Lemma search_results_ordered_witness :
  NoDup (keys (index filled)) ∧
  ∃ results,
    search mock_lower "HELLO" filled = (filled, Some (Ok results)) ∧
    results = ["a"; "b"] ∧
    NoDup results ∧
    results `sublist_of` keys (index filled).
Proof.
  assert (NoDup (keys (index filled))) as Hnd by by_computation.
  split; [exact Hnd|].
  destruct (search_results_ordered mock_lower "HELLO" filled Hnd)
    as (results & Hrun & Hnd' & _ & Hsub).
  exists results. split; [exact Hrun|]. split; [|by split].
  vm_compute in Hrun. by injection Hrun as <-.
Defined.



(** The crawl tests of [WebCrawlerTests], replayed on the model. *)
Example test_crawl_success :
  let st' := (same_page_crawl [Some "/about"; Some "https://www.external.com"]
                3 "https://example.com" None init).1 in
  "https://example.com/about" ∈ visited st' ∧
  ("https://www.external.com" ∉ visited st') ∧
  "https://example.com" ∈ keys (index st') ∧
  "https://example.com/about" ∈ keys (index st').
Proof. split_and!; by_computation. Qed.

Example test_crawl_empty_url :
  "" ∈ visited (mock_crawl down_site 1 "" None init).1.
Proof. by_computation. Qed.

Example test_crawl_relative_and_absolute_links :
  let st' := (same_page_crawl [Some "page2"; Some "https://example.com/page3"]
                3 "https://example.com" None init).1 in
  "https://example.com/page2" ∈ visited st' ∧
  "https://example.com/page3" ∈ visited st'.
Proof. split; by_computation. Qed.

Example test_crawl_does_not_follow_external_links :
  "https://external.com/page" ∉
  visited (same_page_crawl [Some "https://external.com/page"]
             3 "https://example.com" None init).1.
Proof. by_computation. Qed.

Example search_hello :
  search mock_lower "hello" filled = (filled, Some (Ok ["a"; "b"])) ∧
  search mock_lower "" filled = (filled, Some (Ok ["a"; "b"; "c"])) ∧
  search mock_lower "anything" init = (init, Some (Ok [])).
Proof. split_and!; vm_compute; reflexivity. Qed.

(** The Greek words as the bytes of their UTF-8 encoding. *)
Example greek_words_utf8 :
  map nat_of_ascii (String.list_ascii_of_string capital_alpha_sigma) = [206; 145; 206; 163] ∧
  map nat_of_ascii (String.list_ascii_of_string capital_alpha_sigma_alpha)
    = [206; 145; 206; 163; 206; 145] ∧
  map nat_of_ascii (String.list_ascii_of_string small_alpha_final_sigma) = [206; 177; 207; 130] ∧
  map nat_of_ascii (String.list_ascii_of_string small_alpha_sigma_alpha)
    = [206; 177; 207; 131; 206; 177].
Proof. split_and!; reflexivity. Qed.

Example print_results_stdout :
  print_results ["https://test.com/result"] init =
    (mkState [] ∅ ["Search results:"; "- https://test.com/result"] [], Some (Ok tt)) ∧
  print_results [] init = (mkState [] ∅ ["No results found."] [], Some (Ok tt)).
Proof. split; reflexivity. Qed.

(** * Further properties of the crawler *)

Section SessionFacts.

Variable requests_get : string -> result string.
Variable get_text : string -> string.
Variable find_all_a : string -> list (option string).
Variable urljoin : string -> string -> result string.

Local Abbreviation crawl := (crawl requests_get get_text find_all_a urljoin).
Local Abbreviation visit_link := (visit_link urljoin).
Local Abbreviation crawl_run := (crawl_run requests_get get_text find_all_a urljoin).
Local Abbreviation links_run := (links_run requests_get get_text find_all_a urljoin).
Local Abbreviation child := (child requests_get find_all_a urljoin).
Local Abbreviation reachable := (reachable requests_get find_all_a urljoin).
Local Abbreviation main := (main requests_get get_text find_all_a urljoin).
Local Abbreviation index_entry := (index_entry requests_get get_text).
Local Abbreviation hit := (hit requests_get get_text).
Local Abbreviation error_cause := (error_cause requests_get find_all_a urljoin).
Local Abbreviation crawl_log := (crawl_log requests_get find_all_a urljoin).
Local Abbreviation links_lead_into := (links_lead_into requests_get find_all_a urljoin).
Local Abbreviation links_resolve := (links_resolve requests_get find_all_a urljoin).
Local Abbreviation follow_in := (follow_in urljoin).
Local Abbreviation crawl_in := (crawl_in requests_get get_text find_all_a urljoin).

(** X2. [crawl] never lets an exception escape, whatever [requests.get] and
    [urljoin] raise and however deep the failure happens: the [try] block
    covers the request, the indexing and the whole loop over the links. *)
Theorem crawl_never_raises
    (fuel : nat) (url : string) (base_url : option string) (st st' : state) (e : string) :
  crawl fuel url base_url st ≠ (st', Some (Raise e)).
Proof.
  intros Hrun. by apply crawl_run_of_crawl in Hrun as [[?|?] _].
Qed.

(** X3. As soon as a call of [crawl] has got past its first line, its URL is
    in [self.visited]: this holds when the request raises, when a link cannot
    be resolved, and at every depth at which the crawl below it may be cut
    off.  Crawling the same URL again is therefore a no-op: in the state the
    first call leaves, a second call on that URL, with any scope, returns at
    once without a request and without printing. *)
Theorem crawl_marks_visited
    (fuel : nat) (url : string) (base_url : option string) (st : state) :
  let st' := (crawl (S fuel) url base_url st).1 in
  url ∈ visited st' ∧
  ∀ fuel' base_url', crawl (S fuel') url base_url' st' = (st', Some (Ok tt)).
Proof.
  intros st'. assert (url ∈ visited st') as Hvisited.
  - unfold st'. rewrite crawl_unfold. case_bool_decide as Hv; [done|].
    destruct (requests_get url) as [text|e]; [|simpl; set_solver].
    destruct (for_each _ _ _) as [st1 o] eqn:Hloop.
    apply (links_run_of_for_each requests_get get_text find_all_a urljoin) in Hloop;
      [|apply crawl_run_of_crawl].
    apply links_run_grows in Hloop as [Hsub _].
    assert (url ∈ visited st1) as Hin by (apply Hsub; simpl; set_solver).
    by destruct o as [[[]|e]|].
  - split; [done|]. intros fuel' b'. rewrite crawl_unfold.
    by rewrite bool_decide_eq_true_2.
Qed.

(** The URLs a run adds to the visited set are those it requests. *)
Lemma visited_log_crawl_run (url : string) (base_url : option string)
    (st st' : state) (o : option (result unit)) :
  crawl_run url base_url st st' o ->
  ∃ new, requests st' = requests st ++ new ∧
         visited st' = list_to_set new ∪ visited st.
Proof.
  intros Hrun.
  apply (crawl_run_invariant requests_get get_text find_all_a urljoin
    (fun s => ∃ new, requests s = requests st ++ new ∧
                     visited s = list_to_set new ∪ visited st)) in Hrun; [done|..].
  - intros u e s _ _ (new & Hreq & Hvis). exists (new ++ [u]). simpl.
    rewrite Hreq, Hvis, <- app_assoc. split; [done | set_solver].
  - intros u text s _ _ (new & Hreq & Hvis). exists (new ++ [u]). simpl.
    rewrite Hreq, Hvis, <- app_assoc. split; [done | set_solver].
  - intros line s (new & Hreq & Hvis). by exists new.
  - exists []. rewrite app_nil_r. split; [done | set_solver].
Qed.

(** X4. The URLs a call of [crawl] adds to [self.visited] are exactly the
    URLs it passes to [requests.get]: nothing is marked visited without a
    request, nothing is requested without being marked.  When the URL of
    the call is not yet visited, it is the first one requested. *)
Theorem crawl_visits_what_it_requests
    (fuel : nat) (url : string) (base_url : option string) (st : state) :
  let st' := (crawl fuel url base_url st).1 in
  ∃ new,
    requests st' = requests st ++ new ∧
    visited st' = list_to_set new ∪ visited st ∧
    (fuel ≠ 0 -> url ∉ visited st -> ∃ more, new = url :: more).
Proof.
  intros st'. unfold st'. clear st'.
  destruct (crawl fuel url base_url st) as [st' o] eqn:Hrun. simpl.
  destruct (crawl_run_of_crawl _ _ _ _ _ _ _ _ _ _ Hrun) as [_ Hr].
  destruct (visited_log_crawl_run _ _ _ _ _ Hr) as (new & Hreq & Hvis).
  exists new. split_and!; [done | done |].
  intros Hfuel Hv. destruct fuel as [|fuel]; [done|].
  assert ((requests st ++ [url]) `prefix_of` requests st') as [k Hk].
  { rewrite crawl_unfold, bool_decide_eq_false_2 in Hrun by done.
    destruct (requests_get url) as [text|e].
    - destruct (for_each _ _ _) as [st1 o1] eqn:Hloop. injection Hrun as <- _.
      apply (links_run_of_for_each requests_get get_text find_all_a urljoin) in Hloop;
        [|apply crawl_run_of_crawl].
      apply links_run_grows in Hloop as (_ & Hpre & _).
      by destruct o1 as [[[]|e]|].
    - injection Hrun as <- _. done. }
  exists k. rewrite Hreq, <- app_assoc in Hk. by apply app_inv_head in Hk.
Qed.

(** *** The index along a crawl *)

Lemma dict_set_fresh (k v : string) (d : dict) :
  k ∉ keys d -> dict_set k v d = d ++ [(k, v)].
Proof.
  induction d as [|[k0 v0] d IH]; intros Hk; simpl; [done|].
  simpl in Hk. apply not_elem_of_cons in Hk as [Hne Hk].
  destruct (String.eqb k k0) eqn:E; [by apply String.eqb_eq in E|].
  by rewrite IH.
Qed.

Lemma index_entry_raise (u e : string) :
  requests_get u = Raise e -> index_entry u = None.
Proof. intros Hget. unfold index_entry. by rewrite Hget. Qed.

Lemma index_entry_ok (u text : string) :
  requests_get u = Ok text -> index_entry u = Some (u, get_text text).
Proof. intros Hget. unfold index_entry. by rewrite Hget. Qed.

(** On a crawler whose index keys are visited URLs, a crawl appends to the
    index, in the order of the requests, the entries of the pages that were
    delivered. *)
Lemma index_log_crawl_run (url : string) (base_url : option string)
    (st st' : state) (o : option (result unit)) :
  crawl_run url base_url st st' o ->
  index_in_visited st ->
  ∃ new, requests st' = requests st ++ new ∧
         index st' = index st ++ omap index_entry new.
Proof.
  intros Hrun Hst.
  apply (crawl_run_invariant requests_get get_text find_all_a urljoin
    (fun s => index_in_visited s ∧
              ∃ new, requests s = requests st ++ new ∧
                     index s = index st ++ omap index_entry new)) in Hrun.
  - by destruct Hrun as [_ ?].
  - intros u e s Hv Hget (Hin & new & Hreq & Hidx). split.
    { intros k Hk. apply Hin in Hk. simpl. set_solver. }
    exists (new ++ [u]). simpl. rewrite Hreq, <- app_assoc. split; [done|].
    rewrite omap_app. simpl. rewrite (index_entry_raise u e Hget).
    by rewrite app_nil_r.
  - intros u text s Hv Hget (Hin & new & Hreq & Hidx).
    assert (u ∉ keys (index s)) as Hfresh by (intros Hk; by apply Hv, Hin).
    split.
    { intros k Hk. simpl in Hk. rewrite dict_set_fresh in Hk by done.
      unfold keys in Hk. rewrite map_app in Hk. apply elem_of_app in Hk as [Hk|Hk].
      - apply Hin in Hk. simpl. set_solver.
      - apply list_elem_of_singleton in Hk. simpl in Hk. simpl. set_solver. }
    exists (new ++ [u]). simpl. rewrite Hreq, <- app_assoc. split; [done|].
    rewrite dict_set_fresh, Hidx, omap_app by done. simpl.
    rewrite (index_entry_ok u text Hget). by rewrite <- app_assoc.
  - intros line s (Hin & new & Hreq & Hidx). split; [done | by exists new].
  - split; [done|]. exists []. by rewrite !app_nil_r.
Qed.

(** X5. [crawl] never touches what the index says about a URL that is
    already visited: its entry, or its absence, is the same after the call,
    whatever happened in between.  No key is ever removed from the index. *)
Theorem crawl_keeps_index_entries
    (fuel : nat) (url : string) (base_url : option string) (st : state) :
  let st' := (crawl fuel url base_url st).1 in
  (∀ u, u ∈ visited st -> dict_get u (index st') = dict_get u (index st)) ∧
  (∀ u, u ∈ keys (index st) -> u ∈ keys (index st')).
Proof.
  intros st'. unfold st'. clear st'.
  destruct (crawl fuel url base_url st) as [st' o] eqn:Hrun. simpl.
  apply crawl_run_of_crawl in Hrun as [_ Hrun].
  apply (crawl_run_invariant requests_get get_text find_all_a urljoin
    (fun s => visited st ⊆ visited s ∧
              (∀ u, u ∈ visited st -> dict_get u (index s) = dict_get u (index st)) ∧
              (∀ u, u ∈ keys (index st) -> u ∈ keys (index s)))) in Hrun.
  - by destruct Hrun as (_ & ? & ?).
  - intros u e s _ _ (Hsub & Hget & Hkeys). simpl. split_and!; [set_solver | done | done].
  - intros u text s Hv _ (Hsub & Hget & Hkeys). simpl. split_and!.
    + set_solver.
    + intros k Hk. rewrite dict_get_set.
      destruct (String.eqb k u) eqn:E; [|by apply Hget].
      apply String.eqb_eq in E as ->. destruct Hv. by apply Hsub.
    + intros k Hk. apply Hkeys in Hk. rewrite keys_dict_set.
      case_bool_decide; [done|]. apply elem_of_app. by left.
  - done.
  - done.
Qed.

(** X6. The index is filled in the order of the requests.  On a crawler
    whose index keys are visited URLs (a fresh one, or one that has only
    crawled), a call of [crawl] appends to the index one entry for each
    request it makes whose page is delivered, in the order of the requests,
    and changes nothing else in the index. *)
Theorem crawl_index_in_request_order
    (fuel : nat) (url : string) (base_url : option string) (st : state) :
  index_in_visited st ->
  let st' := (crawl fuel url base_url st).1 in
  ∃ new,
    requests st' = requests st ++ new ∧
    index st' = index st ++ omap index_entry new.
Proof.
  intros Hst st'. unfold st'. clear st'.
  destruct (crawl fuel url base_url st) as [st' o] eqn:Hrun. simpl.
  apply crawl_run_of_crawl in Hrun as [_ Hrun].
  by eapply index_log_crawl_run.
Qed.

Lemma search_loop_app (lower : string -> string) (keyword : string) (d1 d2 : dict) :
  search_loop lower keyword (d1 ++ d2) =
  search_loop lower keyword d1 ++ search_loop lower keyword d2.
Proof.
  induction d1 as [|[u t] d1 IH]; [done|].
  rewrite <- app_comm_cons, !search_loop_cons, IH. by rewrite app_assoc.
Qed.

Lemma search_loop_entries (lower : string -> string) (keyword : string) (l : list string) :
  search_loop lower keyword (omap index_entry l) = omap (hit lower keyword) l.
Proof.
  induction l as [|u l IH]; [done|]. cbn [omap list_omap].
  destruct (requests_get u) as [text|e] eqn:Hget.
  - rewrite (index_entry_ok u text Hget). unfold hit at 1. rewrite Hget.
    rewrite search_loop_cons, IH. by destruct (str_in _ _).
  - rewrite (index_entry_raise u e Hget). unfold hit at 1. by rewrite Hget.
Qed.

(** X7. Searching after a crawl: on a crawler that was fresh before the
    crawl, [search(k)] returns the URLs that were requested, whose page was
    delivered and whose extracted text passes the test
    [k.lower() in text.lower()], in the order in which they were requested. *)
Theorem search_after_crawl (lower : string -> string)
    (fuel : nat) (url : string) (base_url : option string) (keyword : string) :
  let st' := (crawl fuel url base_url init).1 in
  search lower keyword st' = (st', Some (Ok (omap (hit lower keyword) (requests st')))).
Proof.
  intros st'. unfold st'. clear st'.
  destruct (crawl fuel url base_url init) as [st' o] eqn:Hrun. simpl.
  apply crawl_run_of_crawl in Hrun as [_ Hrun].
  apply index_log_crawl_run in Hrun as (new & Hreq & Hidx).
  - simpl in Hreq, Hidx. rewrite search_run, Hidx, Hreq.
    by rewrite search_loop_entries.
  - intros u Hu. by apply elem_of_nil in Hu.
Qed.

(** *** What a crawl prints *)

Lemma crawl_log_refl (st : state) : crawl_log st st [] [].
Proof.
  split_and!; try done.
  - by rewrite app_nil_r.
  - by rewrite app_nil_r.
  - constructor.
  - intros u e Hin. by apply elem_of_nil in Hin.
  - intros u Hin. by apply elem_of_nil in Hin.
Qed.

Lemma crawl_log_trans (st st1 st2 : state)
    (r1 r2 : list (string * string)) (n1 n2 : list string) :
  crawl_log st st1 r1 n1 -> crawl_log st1 st2 r2 n2 ->
  crawl_log st st2 (r1 ++ r2) (n1 ++ n2).
Proof.
  intros (Hout1 & Hreq1 & Hnd1 & Hrep1 & Hnew1 & Hsub1)
         (Hout2 & Hreq2 & Hnd2 & Hrep2 & Hnew2 & Hsub2).
  split_and!.
  - by rewrite Hout2, Hout1, map_app, <- app_assoc.
  - by rewrite Hreq2, Hreq1, <- app_assoc.
  - rewrite fmap_app. apply NoDup_app. split_and!; [done | | done].
    intros u Hu1 Hu2.
    apply list_elem_of_fmap in Hu1 as ([u1 e1] & -> & Hin1).
    apply list_elem_of_fmap in Hu2 as ([u2 e2] & Heq & Hin2). simpl in Heq. subst u2.
    apply Hrep1 in Hin1 as [Hin1 _]. apply Hrep2 in Hin2 as [Hin2 _].
    apply Hnew1 in Hin1 as [_ Hin1]. apply Hnew2 in Hin2 as [Hin2 _]. done.
  - intros u e Hin. apply elem_of_app in Hin as [Hin|Hin].
    + apply Hrep1 in Hin as [Hin Hc]. split; [|done]. apply elem_of_app. by left.
    + apply Hrep2 in Hin as [Hin Hc]. split; [|done]. apply elem_of_app. by right.
  - intros u Hin. apply elem_of_app in Hin as [Hin|Hin].
    + apply Hnew1 in Hin as [Hnot Hin]. split; [done | by apply Hsub2].
    + apply Hnew2 in Hin as [Hnot Hin]. split; [|done]. intros Hv. by apply Hnot, Hsub1.
  - set_solver.
Qed.

Lemma crawl_log_fetch_error (url e : string) (st : state) :
  url ∉ visited st ->
  requests_get url = Raise e ->
  crawl_log st (printed (error_line url e) (entered url st)) [(url, e)] [url].
Proof.
  intros Hv Hget. split_and!; simpl; try done.
  - apply NoDup_singleton.
  - intros u e' Hin. apply list_elem_of_singleton in Hin. injection Hin as -> ->.
    split; [by apply list_elem_of_singleton | by left].
  - intros u Hin. apply list_elem_of_singleton in Hin as ->. split; [done | set_solver].
  - set_solver.
Qed.

(** The account of a call on a delivered page, from that of its link loop. *)
Lemma crawl_log_page (url text : string) (st st' : state) (o : option (result unit))
    (reports : list (string * string)) (new : list string) :
  url ∉ visited st ->
  crawl_log (indexed url text (entered url st)) st' reports new ->
  (∀ e, o = Some (Raise e) -> error_cause url e) ->
  ∃ reports', crawl_log st (reported url o st') reports' (url :: new).
Proof.
  intros Hv (Hout & Hreq & Hnd & Hrep & Hnew & Hsub) Hcause.
  simpl in Hout, Hreq, Hnew, Hsub.
  assert (url ∈ visited st') as Hurl by (apply Hsub; set_solver).
  assert (url ∉ reports.*1) as Hfresh.
  { intros Hin. apply list_elem_of_fmap in Hin as ([u e] & -> & Hin).
    apply Hrep in Hin as [Hin _]. apply Hnew in Hin as [Hin _]. simpl in Hin. set_solver. }
  assert (∀ u, u ∈ url :: new -> (u ∉ visited st) ∧ u ∈ visited st') as Hnew'.
  { intros u Hin. apply elem_of_cons in Hin as [->|Hin]; [done|].
    apply Hnew in Hin as [Hnot Hin]. split; [set_solver | done]. }
  assert (∀ u e, (u, e) ∈ reports -> u ∈ url :: new ∧ error_cause u e) as Hrep'.
  { intros u e Hin. apply Hrep in Hin as [Hin Hc]. split; [by right | done]. }
  assert (requests st' = requests st ++ url :: new) as Hreq'.
  { by rewrite Hreq, <- app_assoc. }
  destruct o as [[[]|e]|]; simpl.
  - exists reports. split_and!; try done. set_solver.
  - exists (reports ++ [(url, e)]). split_and!; simpl; try done.
    + by rewrite Hout, map_app, <- app_assoc.
    + rewrite fmap_app. apply NoDup_app. split_and!; [done | | apply NoDup_singleton].
      intros u Hu Hu'. apply list_elem_of_singleton in Hu'. by subst u.
    + intros u e' Hin. apply elem_of_app in Hin as [Hin|Hin]; [by apply Hrep'|].
      apply list_elem_of_singleton in Hin. injection Hin as -> ->.
      split; [by left | by apply Hcause].
    + set_solver.
  - exists reports. split_and!; try done. set_solver.
Qed.

Lemma crawl_log_crawl_run (url : string) (base_url : option string)
    (st st' : state) (o : option (result unit)) :
  crawl_run url base_url st st' o ->
  ∃ reports new, crawl_log st st' reports new.
Proof.
  revert url base_url st st' o.
  apply (crawl_run_mut requests_get get_text find_all_a urljoin
    (fun url base_url st st' o => ∃ reports new, crawl_log st st' reports new)
    (fun url base_url links st st' o =>
       (∃ reports new, crawl_log st st' reports new) ∧
       ∀ e, o = Some (Raise e) ->
            ∃ h, Some h ∈ links ∧ h ≠ "" ∧ urljoin (py_or base_url url) h = Raise e)).
  - intros url b st. exists [], []. apply crawl_log_refl.
  - intros url b st _. exists [], []. apply crawl_log_refl.
  - intros url b st e Hv Hget. exists [(url, e)], [url]. by apply crawl_log_fetch_error.
  - intros url b st text st' o Hv Hget _ [(reports & new & Hlog) Hraise].
    destruct (crawl_log_page url (get_text text) st st' o reports new Hv Hlog)
      as [reports' Hlog'].
    + intros e He. destruct (Hraise e He) as (h & Hin & Hh & Hj).
      right. by exists text, (py_or b url), h.
    + by exists reports', (url :: new).
  - intros url b st. split; [|done]. exists [], []. apply crawl_log_refl.
  - intros url b link links st st' o _ _ [Hlog Hraise]. split; [done|].
    intros e He. destruct (Hraise e He) as (h & Hin & Hh & Hj).
    exists h. split; [by right | done].
  - intros url b link links st e Ht Hj. split.
    + exists [], []. apply crawl_log_refl.
    + intros e' [= <-]. destruct (truthy_inv link Ht) as (h & -> & Hh).
      exists h. split; [by left | done].
  - intros url b link links st href st' o _ _ _ _ [Hlog Hraise]. split; [done|].
    intros e He. destruct (Hraise e He) as (h & Hin & Hh & Hj).
    exists h. split; [by right | done].
  - intros url b link links st href st1 st' o _ _ _ _ (r1 & n1 & Hlog1)
           _ [(r2 & n2 & Hlog2) Hraise]. split.
    + exists (r1 ++ r2), (n1 ++ n2). by eapply crawl_log_trans.
    + intros e He. destruct (Hraise e He) as (h & Hin & Hh & Hj).
      exists h. split; [by right | done].
  - intros url b link links st href st1 _ _ _ _ Hlog. split; [done | done].
Qed.

(** X8. Everything [crawl] prints is an error report.  The lines a call
    adds to the output are of the form [Error crawling <u>: <e>], each about a
    URL [u] requested during the call, and each with a cause: the request of
    [u] raised [e], or the page of [u] was delivered and [urljoin] raised [e]
    on one of its links.  No URL is reported twice, so there are at most as
    many lines as requests; earlier output is kept. *)
Theorem crawl_prints_error_reports
    (fuel : nat) (url : string) (base_url : option string) (st : state) :
  let st' := (crawl fuel url base_url st).1 in
  ∃ reports new,
    stdout st' = stdout st ++ map (fun r => error_line r.1 r.2) reports ∧
    requests st' = requests st ++ new ∧
    NoDup reports.*1 ∧
    length reports ≤ length new ∧
    (∀ u e, (u, e) ∈ reports -> u ∈ new ∧ error_cause u e).
Proof.
  intros st'. unfold st'. clear st'.
  destruct (crawl fuel url base_url st) as [st' o] eqn:Hrun. simpl.
  apply crawl_run_of_crawl in Hrun as [_ Hrun].
  apply crawl_log_crawl_run in Hrun
    as (reports & new & Hout & Hreq & Hnd & Hrep & _ & _).
  exists reports, new. split_and!; try done.
  rewrite <- (length_fmap fst reports). apply submseteq_length, NoDup_submseteq; [done|].
  intros u Hu. apply list_elem_of_fmap in Hu as ([u' e] & -> & Hin).
  by apply Hrep in Hin as [? _].
Qed.

(** *** The scope of a call *)

Lemma for_each_scope_eq (self_crawl : string -> option string -> M unit)
    (url : string) (base_url base_url' : option string)
    (links : list (option string)) (st : state) :
  py_or base_url url = py_or base_url' url ->
  for_each links (visit_link self_crawl url base_url) st =
  for_each links (visit_link self_crawl url base_url') st.
Proof.
  intros Heq. revert st. induction links as [|link links IH]; intros st; [done|].
  rewrite !for_each_link, Heq.
  destruct (truthy link); [|done].
  destruct (urljoin _ _) as [href|e]; [|done].
  destruct (startswith _ _); [|done].
  by destruct (self_crawl href _ st) as [st1 [[[]|e]|]].
Qed.

(** X9. The [base_url] argument matters only through [base_url or url]:
    two calls on the same URL whose arguments give the same scope string do
    the same.  In particular an empty [base_url] is the same as none, and
    so is a [base_url] equal to the URL. *)
Theorem crawl_scope_argument
    (fuel : nat) (url : string) (base_url base_url' : option string) (st : state) :
  py_or base_url url = py_or base_url' url ->
  crawl fuel url base_url st = crawl fuel url base_url' st.
Proof.
  intros Heq. destruct fuel as [|fuel]; [done|].
  rewrite !crawl_unfold. case_bool_decide; [done|].
  destruct (requests_get url) as [text|e]; [|done].
  by rewrite (for_each_scope_eq _ url base_url base_url').
Qed.

Lemma reachable_scope (url : string) (base_url : option string)
    (u : string) (b : option string) :
  reachable (url, base_url) (u, b) ->
  py_or base_url url ≠ "" ->
  py_or b u = py_or base_url url.
Proof.
  intros Hr Hne.
  refine (rtc_ind_r (fun c => py_or c.2 c.1 = py_or base_url url)
            (url, base_url) eq_refl _ (u, b) Hr).
  intros c1 c2 _ Hstep IH.
  destruct Hstep as [u1 b1 text h href _ _ _ _ _]. simpl in *.
  rewrite IH. by destruct (py_or base_url url).
Qed.

Lemma py_or_nonempty (s u : string) : s ≠ "" -> py_or (Some s) u = s.
Proof. by destruct s. Qed.

(** The link loop of [crawl] is the link loop of the traversal of its scope,
    once the nested calls are. *)
Lemma for_each_follow_in (fuel : nat) (url : string) (base_url : option string)
    (links : list (option string)) (st : state) :
  (∀ u b st0, py_or b u ≠ "" -> crawl fuel u b st0 = crawl_in (py_or b u) fuel u st0) ->
  py_or base_url url ≠ "" ->
  for_each links (visit_link (crawl fuel) url base_url) st =
  for_each links (follow_in (py_or base_url url) (crawl_in (py_or base_url url) fuel)) st.
Proof.
  intros IH Hne. revert st. induction links as [|link links IHl]; intros st; [done|].
  rewrite for_each_link. cbn [for_each]. unfold bind at 1. unfold follow_in at 1.
  destruct (truthy link); [|by rewrite IHl].
  unfold bind, call. destruct (urljoin _ _) as [href|e]; [|done].
  destruct (startswith _ _); [|by rewrite IHl].
  rewrite IH by (by rewrite py_or_nonempty).
  rewrite (py_or_nonempty _ href Hne).
  destruct (crawl_in _ fuel href st) as [st1 [[[]|e]|]]; [by rewrite IHl | done | done].
Qed.

(** A call has an empty scope string only on the empty URL, and a nested
    call that is handed the empty scope string takes its own URL as scope. *)
Lemma empty_scope (url : string) (base_url : option string) (href : string) :
  py_or base_url url = "" ->
  url = "" ∧ py_or (Some (py_or base_url url)) href = href.
Proof.
  intros Hempty. rewrite Hempty. split; [|done].
  destruct base_url as [[|c s]|]; simpl in Hempty; [done | done | done].
Qed.

(** X10. The scope string is handed down unchanged.  A call of [crawl]
    whose scope string [base_url or url] is not empty is the traversal with
    that scope fixed: at every depth the links are resolved against the
    scope string of the first call and tested against it.  (Only a call on
    the empty URL without [base_url] has an empty scope string; its nested
    calls then take their own URL as scope: lemma [empty_scope].) *)
Theorem scope_handed_down
    (fuel : nat) (url : string) (base_url : option string) (st : state) :
  py_or base_url url ≠ "" ->
  crawl fuel url base_url st = crawl_in (py_or base_url url) fuel url st.
Proof.
  revert url base_url st. induction fuel as [|fuel IH]; intros url base_url st Hne.
  { reflexivity. }
  rewrite crawl_unfold. simpl. unfold bind at 1. unfold get_state.
  case_bool_decide; [reflexivity|].
  unfold visited_add, try_except, http_get, bind, log_request, call, index_set. simpl.
  destruct (requests_get url) as [text|e]; [|reflexivity].
  fold (indexed url (get_text text) (entered url st)).
  rewrite (for_each_follow_in fuel url base_url _ _ IH Hne).
  destruct (for_each _ _ _) as [st' [[[]|e]|]]; reflexivity.
Qed.

(** *** A crawl and the reachable URLs *)

(** What a run requests is reachable from its call. *)
Lemma reach_crawl_run (url : string) (base_url : option string)
    (st st' : state) (o : option (result unit)) :
  crawl_run url base_url st st' o ->
  ∃ new, requests st' = requests st ++ new ∧
         ∀ u, u ∈ new -> ∃ b, reachable (url, base_url) (u, b).
Proof.
  revert url base_url st st' o.
  apply (crawl_run_mut requests_get get_text find_all_a urljoin
    (fun url base_url st st' _ =>
       ∃ new, requests st' = requests st ++ new ∧
              ∀ u, u ∈ new -> ∃ b, reachable (url, base_url) (u, b))
    (fun url base_url links st st' _ =>
       ∀ text, requests_get url = Ok text -> links ⊆ find_all_a text ->
       ∃ new, requests st' = requests st ++ new ∧
              ∀ u, u ∈ new -> ∃ b, reachable (url, base_url) (u, b))).
  - intros url b st. exists []. rewrite app_nil_r. split; [done|].
    intros u Hu. by apply elem_of_nil in Hu.
  - intros url b st _. exists []. rewrite app_nil_r. split; [done|].
    intros u Hu. by apply elem_of_nil in Hu.
  - intros url b st e _ _. exists [url]. split; [done|].
    intros u Hu. apply list_elem_of_singleton in Hu as ->. exists b. apply rtc_refl.
  - intros url b st text st' o _ Hget _ IH.
    destruct (IH text Hget) as (new & Hreq & Hreach); [done|].
    exists (url :: new). split.
    + simpl in Hreq. rewrite <- app_assoc in Hreq. by destruct o as [[[]|e]|].
    + intros u Hu. apply elem_of_cons in Hu as [->|Hu]; [|by apply Hreach].
      exists b. apply rtc_refl.
  - intros url b st text _ _. exists []. rewrite app_nil_r. split; [done|].
    intros u Hu. by apply elem_of_nil in Hu.
  - intros url b link links st st' o _ _ IH text Hget Hsub.
    apply (IH text Hget). set_solver.
  - intros url b link links st e _ _ text _ _. exists []. rewrite app_nil_r.
    split; [done|]. intros u Hu. by apply elem_of_nil in Hu.
  - intros url b link links st href st' o _ _ _ _ IH text Hget Hsub.
    apply (IH text Hget). set_solver.
  - intros url b link links st href st1 st' o Ht Hj Hs _ (n1 & Hreq1 & Hreach1)
           _ IH text Hget Hsub.
    destruct (IH text Hget) as (n2 & Hreq2 & Hreach2); [set_solver|].
    destruct (truthy_inv link Ht) as (h & -> & Hh). simpl in Hj.
    assert (child (url, b) (href, Some (py_or b url))) as Hchild.
    { eapply child_link; eauto. apply Hsub. by left. }
    exists (n1 ++ n2). split; [by rewrite Hreq2, Hreq1, <- app_assoc|].
    intros u Hu. apply elem_of_app in Hu as [Hu|Hu]; [|by apply Hreach2].
    destruct (Hreach1 u Hu) as [b' Hr]. exists b'. by eapply rtc_l.
  - intros url b link links st href st1 Ht Hj Hs _ (n1 & Hreq1 & Hreach1)
           text Hget Hsub.
    destruct (truthy_inv link Ht) as (h & -> & Hh). simpl in Hj.
    assert (child (url, b) (href, Some (py_or b url))) as Hchild.
    { eapply child_link; eauto. apply Hsub. by left. }
    exists n1. split; [done|].
    intros u Hu. destruct (Hreach1 u Hu) as [b' Hr]. exists b'. by eapply rtc_l.
Qed.

(** X14. [crawl] visits only what the links reach: every URL a call adds to
    [self.visited] is the URL of the call or is reached from it through a
    chain of links, each link on a delivered page and resolving to a URL
    inside the scope.  This holds however the call ends. *)
Theorem crawl_visits_only_reachable
    (fuel : nat) (url : string) (base_url : option string) (st : state) :
  let st' := (crawl fuel url base_url st).1 in
  ∀ u, u ∈ visited st' ->
       u ∈ visited st ∨ ∃ b, reachable (url, base_url) (u, b).
Proof.
  intros st'. unfold st'. clear st'.
  destruct (crawl fuel url base_url st) as [st' o] eqn:Hrun. simpl.
  apply crawl_run_of_crawl in Hrun as [_ Hrun]. intros u Hu.
  destruct (visited_log_crawl_run _ _ _ _ _ Hrun) as (new & Hreq & Hvis).
  destruct (reach_crawl_run _ _ _ _ _ Hrun) as (new' & Hreq' & Hreach).
  rewrite Hreq in Hreq'. apply app_inv_head in Hreq' as <-.
  rewrite Hvis in Hu. apply elem_of_union in Hu as [Hu|Hu]; [|by left].
  right. apply Hreach. by apply elem_of_list_to_set in Hu.
Qed.

Lemma links_lead_into_mono (s u : string) (V V' : gset string) :
  V ⊆ V' -> links_lead_into s u V -> links_lead_into s u V'.
Proof. intros Hsub Hl text h href ? ? ? ? ?. apply Hsub. by eapply Hl. Qed.

(** A run that returned, with scope [s], has followed every link: the
    in-scope links of every page it requested lead into the visited set. *)
Lemma closure_crawl_run (s : string) :
  s ≠ "" -> links_resolve s ->
  ∀ url base_url st st' o,
    crawl_run url base_url st st' o ->
    ∀ r, o = Some r -> py_or base_url url = s ->
         ∃ new, requests st' = requests st ++ new ∧
                ∀ u, u ∈ new -> links_lead_into s u (visited st').
Proof.
  intros Hs Hres.
  apply (crawl_run_mut requests_get get_text find_all_a urljoin
    (fun url base_url st st' o =>
       ∀ r, o = Some r -> py_or base_url url = s ->
            ∃ new, requests st' = requests st ++ new ∧
                   ∀ u, u ∈ new -> links_lead_into s u (visited st'))
    (fun url base_url links st st' o =>
       ∀ r text, o = Some r -> py_or base_url url = s ->
                 requests_get url = Ok text -> links ⊆ find_all_a text ->
         r = Ok tt ∧
         (∀ h href, Some h ∈ links -> h ≠ "" -> urljoin s h = Ok href ->
                    startswith href s = true -> href ∈ visited st') ∧
         ∃ new, requests st' = requests st ++ new ∧
                ∀ u, u ∈ new -> links_lead_into s u (visited st'))).
  - done.
  - intros url b st _ r _ _. exists []. rewrite app_nil_r. split; [done|].
    intros u Hu. by apply elem_of_nil in Hu.
  - intros url b st e _ Hget r _ _. exists [url]. split; [done|].
    intros u Hu. apply list_elem_of_singleton in Hu as ->.
    intros text h href Hget'. congruence.
  - intros url b st text st' o _ Hget _ IH r Hr Hscope.
    destruct o as [r'|]; [|done].
    destruct (IH r' text eq_refl Hscope Hget) as (-> & Hlinks & new & Hreq & Hnew);
      [done|].
    simpl. exists (url :: new). split.
    + simpl in Hreq. by rewrite <- app_assoc in Hreq.
    + intros u Hu. apply elem_of_cons in Hu as [->|Hu]; [|by apply Hnew].
      intros text' h href Hget' Hin Hh Hj Hpre.
      rewrite Hget in Hget'. injection Hget' as <-. by eapply Hlinks.
  - intros url b st r text [= <-] _ _ _. split; [done|]. split.
    + intros h href Hin. by apply elem_of_nil in Hin.
    + exists []. rewrite app_nil_r. split; [done|].
      intros u Hu. by apply elem_of_nil in Hu.
  - intros url b link links st st' o Ht _ IH r text Hr Hscope Hget Hsub.
    destruct (IH r text Hr Hscope Hget) as (-> & Hlinks & Hnew); [set_solver|].
    split; [done|]. split; [|done].
    intros h href Hin Hh Hj Hpre. apply elem_of_cons in Hin as [<-|Hin].
    + by rewrite (truthy_nonempty h Hh) in Ht.
    + by eapply Hlinks.
  - intros url b link links st e Ht Hj r text _ Hscope Hget Hsub.
    destruct (truthy_inv link Ht) as (h & -> & Hh). simpl in Hj. rewrite Hscope in Hj.
    destruct (Hres url text h e Hget); [apply Hsub; by left | done | done].
  - intros url b link links st href st' o Ht Hj Hout _ IH r text Hr Hscope Hget Hsub.
    destruct (IH r text Hr Hscope Hget) as (-> & Hlinks & Hnew); [set_solver|].
    split; [done|]. split; [|done].
    intros h href' Hin Hh Hj' Hpre. apply elem_of_cons in Hin as [<-|Hin].
    + simpl in Hj. rewrite Hscope in Hj, Hout. congruence.
    + by eapply Hlinks.
  - intros url b link links st href st1 st' o Ht Hj Hin_scope Hc IHc Hl IHl
           r text Hr Hscope Hget Hsub.
    destruct (IHl r text Hr Hscope Hget) as (-> & Hlinks & n2 & Hreq2 & Hnew2);
      [set_solver|].
    destruct (IHc (Ok tt) eq_refl) as (n1 & Hreq1 & Hnew1).
    { rewrite Hscope. by destruct s. }
    apply links_run_grows in Hl as [Hsub' _].
    split; [done|]. split.
    + intros h href' Hin Hh Hj' Hpre. apply elem_of_cons in Hin as [<-|Hin].
      * simpl in Hj. rewrite Hscope in Hj. rewrite Hj' in Hj. injection Hj as ->.
        apply Hsub'. by eapply crawl_run_visited.
      * by eapply Hlinks.
    + exists (n1 ++ n2). split; [by rewrite Hreq2, Hreq1, <- app_assoc|].
      intros u Hu. apply elem_of_app in Hu as [Hu|Hu]; [|by apply Hnew2].
      eapply links_lead_into_mono; [exact Hsub' | by apply Hnew1].
  - done.
Qed.

(** X15. A crawl that returns has visited exactly what the links reach.
    Start from a fresh crawler, with a non-empty scope string, on a site
    where no delivered page holds a link on which [urljoin] raises.  When
    [crawl] returns, a URL is in [self.visited] if and only if it is the URL
    of the call or is reached from it through links that resolve to URLs
    inside the scope. *)
Theorem crawl_visits_exactly_reachable
    (fuel : nat) (url : string) (base_url : option string)
    (st' : state) (r : result unit) :
  crawl fuel url base_url init = (st', Some r) ->
  py_or base_url url ≠ "" ->
  links_resolve (py_or base_url url) ->
  ∀ u, u ∈ visited st' ↔ ∃ b, reachable (url, base_url) (u, b).
Proof.
  intros Hrun Hne Hres u.
  apply crawl_run_of_crawl in Hrun as [_ Hrun].
  destruct (visited_log_crawl_run _ _ _ _ _ Hrun) as (new & Hreq & Hvis).
  split.
  - intros Hu. destruct (reach_crawl_run _ _ _ _ _ Hrun) as (new' & Hreq' & Hreach).
    rewrite Hreq in Hreq'. apply app_inv_head in Hreq' as <-.
    apply Hreach. rewrite Hvis in Hu. set_solver.
  - intros [b Hr].
    destruct (closure_crawl_run _ Hne Hres _ _ _ _ _ Hrun r eq_refl eq_refl)
      as (new' & Hreq' & Hclosed).
    rewrite Hreq in Hreq'. apply app_inv_head in Hreq' as <-.
    refine (rtc_ind_r (fun c => c.1 ∈ visited st') (url, base_url) _ _ (u, b) Hr).
    + simpl. by eapply crawl_run_visited.
    + intros c1 c2 Hr1 Hstep IH.
      destruct Hstep as [u1 b1 text h href Hget Hin Hh Hj Hpre]. simpl in *.
      assert (py_or b1 u1 = py_or base_url url) as Hscope by by apply reachable_scope.
      rewrite Hscope in Hj, Hpre.
      assert (u1 ∈ new) as Hnew by (rewrite Hvis in IH; set_solver).
      by eapply (Hclosed u1 Hnew).
Qed.

(** *** [print_results] and [main] *)

Lemma print_results_lines (results : list string) (st : state) :
  print_results results st =
  (mkState (index st) (visited st) (stdout st ++ result_lines results) (requests st),
   Some (Ok tt)).
Proof.
  destruct results as [|r results]; [done|].
  unfold print_results, bind, print at 1.
  rewrite (for_each_print (fun r => "- " +:+ r)). simpl. by rewrite <- app_assoc.
Qed.

Lemma main_unfold (lower : string -> string) (fuel : nat) (st : state) :
  main lower fuel st =
  match crawl fuel "https://example.com" None st with
  | (st1, Some (Ok _)) => print_results (search_loop lower "test" (index st1)) st1
  | (st1, Some (Raise e)) => (st1, Some (Raise e))
  | (st1, None) => (st1, None)
  end.
Proof.
  unfold main, bind at 1.
  by destruct (crawl fuel "https://example.com" None st) as [st1 [[[]|e]|]].
Qed.

(** X11. What [main] prints.  After the error reports of the crawl of
    [https://example.com], [main] lists, in the order in which they were
    requested, the URLs whose page was delivered and whose text contains
    [test] up to case, or says that there are none.  Every URL it lists
    starts with [https://example.com].  [main] never raises; it ends only if
    the crawl does.  What is used of [str.lower] is that it finds [test]
    only where the text contains it up to case. *)
Theorem main_lists_hits (lower : string -> string)
    (fuel : nat) (st1 : state) (o : option (result unit)) :
  lower_finds_only lower "test" ->
  crawl fuel "https://example.com" None init = (st1, o) ->
  let results := omap (hit lower "test") (requests st1) in
  main lower fuel init =
    match o with
    | Some _ =>
        (mkState (index st1) (visited st1) (stdout st1 ++ result_lines results)
                 (requests st1), Some (Ok tt))
    | None => (st1, None)
    end
  ∧ ∀ u, u ∈ results ->
         startswith u "https://example.com" = true ∧
         ∃ text, requests_get u = Ok text ∧ ci_substring_of "test" (get_text text).
Proof.
  intros Hfinds Hrun results. split.
  - rewrite main_unfold, Hrun.
    destruct (crawl_run_of_crawl _ _ _ _ _ _ _ _ _ _ Hrun) as [[->| ->] Hr]; [done|].
    rewrite print_results_lines.
    apply index_log_crawl_run in Hr as (new & Hreq & Hidx).
    + simpl in Hreq, Hidx. subst results. by rewrite Hidx, Hreq, search_loop_entries.
    + intros u Hu. by apply elem_of_nil in Hu.
  - intros u Hu. apply list_elem_of_omap in Hu as (x & Hx & Hhit).
    unfold hit in Hhit. destruct (requests_get x) as [text|e] eqn:Hget; [|done].
    destruct (str_in _ _) eqn:Hs; [|done]. injection Hhit as <-. split.
    + apply crawl_run_of_crawl in Hrun as [_ Hr].
      apply (crawl_run_requests_in_scope _ _ _ _ _ _ _ _ _ Hr) in Hx as [Hx|[->|Hx]].
      * by apply elem_of_nil in Hx.
      * reflexivity.
      * done.
    + exists text. split; [done|]. by apply Hfinds, str_in_correct.
Qed.

End SessionFacts.

(** ** Further properties of [print_results] and [search] *)

(** X1. [print_results] writes to the output and touches nothing else.  For
    an empty list it adds the single line [No results found.]; otherwise it
    adds the line [Search results:] followed by one line [- <r>] for each
    result, in the order of the list.  It keeps the earlier output, the
    index, the visited set and the request log, and it does not raise. *)
Theorem print_results_writes (results : list string) (st : state) :
  print_results results st =
    (mkState (index st) (visited st) (stdout st ++ result_lines results) (requests st),
     Some (Ok tt)) ∧
  (results = [] -> result_lines results = ["No results found."]) ∧
  (results ≠ [] ->
   result_lines results !! 0 = Some "Search results:" ∧
   length (result_lines results) = S (length results) ∧
   ∀ i r, results !! i = Some r -> result_lines results !! S i = Some ("- " +:+ r)).
Proof.
  split_and!.
  - apply print_results_lines.
  - by intros ->.
  - intros Hne. destruct results as [|r0 results]; [done|].
    split_and!; [done | |].
    + simpl. by rewrite length_map.
    + intros i r Hi. change (result_lines (r0 :: results) !! S i)
        with (map (fun r => "- " +:+ r) (r0 :: results) !! i).
      change (map ?f ?l) with (f <$> l). by rewrite list_lookup_fmap, Hi.
Qed.

Lemma search_loop_case (lower : string -> string) (k k' : string) (d d' : dict) :
  lower k = lower k' ->
  Forall2 (fun p q => p.1 = q.1 ∧ lower p.2 = lower q.2) d d' ->
  search_loop lower k d = search_loop lower k' d'.
Proof.
  intros Hk Hd. induction Hd as [|[u t] [u' t'] d d' [Hu Ht] _ IH]; [done|].
  simpl in Hu, Ht. subst u'. by rewrite !search_loop_cons, IH, Hk, Ht.
Qed.

Lemma ci_eqb_lower (lower : string -> string) (a b : string) :
  lower_on_ascii lower ->
  is_ascii a = true -> is_ascii b = true -> ci_eqb a b = true ->
  lower a = lower b.
Proof.
  intros Hl Ha Hb Hab. rewrite (Hl a Ha), (Hl b Hb). by apply ci_eqb_correct.
Qed.

(** X12. On ASCII strings [search] ignores the case of letters.  Two ASCII
    keywords that differ only in the case of letters give the same result,
    also on two indexes that hold the same URLs in the same order, with
    equal texts or with ASCII texts that differ only in case; and an ASCII
    keyword may be lower-cased beforehand.  All that is assumed of
    [str.lower] is what it does to ASCII strings. *)
Theorem search_ignores_case (lower : string -> string) (k k' : string) (st st' : state) :
  lower_on_ascii lower ->
  is_ascii k = true -> is_ascii k' = true -> ci_eqb k k' = true ->
  same_up_to_case (index st) (index st') ->
  (search lower k st).2 = (search lower k' st').2 ∧
  search lower (lower k) st = search lower k st.
Proof.
  intros Hl Hk Hk' Hkk Hd. split.
  - simpl. rewrite (search_loop_case lower k k' (index st) (index st')); [done| |].
    + by apply ci_eqb_lower.
    + eapply Forall2_impl; [exact Hd|].
      intros p q [Hu [->|(Hp & Hq & Hpq)]]; split; try done.
      by apply ci_eqb_lower.
  - rewrite !search_run. do 3 f_equal.
    apply search_loop_case; [by apply lower_on_ascii_idem|].
    clear. induction (index st) as [|p d IH]; by constructor.
Qed.

(** [mock_lower] finds [test] only where it occurs up to case. *)
Lemma mock_lower_finds_test : lower_finds_only mock_lower "test".
Proof.
  intros t Hsub. apply str_in_correct in Hsub.
  change (mock_lower "test") with (ascii_lower "test") in Hsub.
  unfold mock_lower in Hsub.
  destruct (String.eqb t capital_alpha_sigma); [vm_compute in Hsub; discriminate|].
  destruct (String.eqb t capital_alpha_sigma_alpha); [vm_compute in Hsub; discriminate|].
  by apply str_in_ascii_lower_correct.
Qed.

(** ** The further properties on concrete sites *)

Lemma index_in_visited_init : index_in_visited init.
Proof. intros u Hu. by apply elem_of_nil in Hu. Qed.

(** On [partial_site] the dead link [/gone] is requested but leaves no
    entry: the index holds the home page and [/about], in that order. *)
Lemma crawl_index_in_request_order_witness :
  index_in_visited init ∧
  ∃ new,
    requests (mock_crawl partial_site 2 "https://example.com" None init).1
      = requests init ++ new ∧
    new = ["https://example.com"; "https://example.com/gone";
           "https://example.com/about"] ∧
    index (mock_crawl partial_site 2 "https://example.com" None init).1
      = index init ++
        omap (index_entry (mock_get partial_site) (mock_text partial_site)) new ∧
    omap (index_entry (mock_get partial_site) (mock_text partial_site)) new
      = [("https://example.com", "home"); ("https://example.com/about", "About Us")].
Proof.
  split; [exact index_in_visited_init|].
  destruct (crawl_index_in_request_order
              (mock_get partial_site) (mock_text partial_site) (mock_links partial_site)
              mock_urljoin 2 "https://example.com" None init index_in_visited_init)
    as (new & Hreq & Hidx).
  exists new. split; [exact Hreq|].
  assert (new = ["https://example.com"; "https://example.com/gone";
                 "https://example.com/about"]) as Hnew.
  { vm_compute in Hreq. by rewrite <- Hreq. }
  split; [exact Hnew|]. split; [exact Hidx|]. rewrite Hnew. reflexivity.
Defined.

(** An empty [base_url] and a [base_url] equal to the URL are the same as
    none. *)
Lemma crawl_scope_argument_witness :
  py_or (Some "") "https://example.com" = py_or None "https://example.com" ∧
  mock_crawl example_site 2 "https://example.com" (Some "") init
  = mock_crawl example_site 2 "https://example.com" None init.
Proof.
  split; [reflexivity|].
  exact (crawl_scope_argument (mock_get example_site) (mock_text example_site)
           (mock_links example_site) mock_urljoin 2 "https://example.com"
           (Some "") None init eq_refl).
Defined.

(** The crawl of the diamond site is the traversal of the scope
    [https://example.com]. *)
Lemma scope_handed_down_witness :
  py_or None "https://example.com" ≠ "" ∧
  mock_crawl diamond_site 3 "https://example.com" None init
  = crawl_in (mock_get diamond_site) (mock_text diamond_site) (mock_links diamond_site)
             mock_urljoin "https://example.com" 3 "https://example.com" init ∧
  requests (crawl_in (mock_get diamond_site) (mock_text diamond_site)
              (mock_links diamond_site) mock_urljoin
              "https://example.com" 3 "https://example.com" init).1
  = ["https://example.com"; "https://example.com/b";
     "https://example.com/d"; "https://example.com/c"].
Proof.
  assert (py_or None "https://example.com" ≠ "") as Hne by discriminate.
  split; [exact Hne|]. split; [|vm_compute; reflexivity].
  exact (scope_handed_down (mock_get diamond_site) (mock_text diamond_site)
           (mock_links diamond_site) mock_urljoin 3 "https://example.com" None init Hne).
Defined.

(** On [test_site], [main] lists the home page ([Unit TEST page]) and [/b]
    ([the latest news], where [test] occurs inside a word), not [/a]. *)
Lemma main_lists_hits_witness :
  ∃ st1,
    mock_crawl test_site 2 "https://example.com" None init = (st1, Some (Ok tt)) ∧
    lower_finds_only mock_lower "test" ∧
    stdout (main (mock_get test_site) (mock_text test_site) (mock_links test_site)
                 mock_urljoin mock_lower 2 init).1
    = ["Search results:"; "- https://example.com"; "- https://example.com/b"] ∧
    ∀ u, u ∈ omap (hit (mock_get test_site) (mock_text test_site) mock_lower "test")
                  (requests st1) ->
         startswith u "https://example.com" = true ∧
         ∃ text, mock_get test_site u = Ok text ∧
                 ci_substring_of "test" (mock_text test_site text).
Proof.
  eexists. split; [vm_compute; reflexivity|].
  split; [exact mock_lower_finds_test|]. split; [vm_compute; reflexivity|].
  refine (proj2 (main_lists_hits (mock_get test_site) (mock_text test_site)
                   (mock_links test_site) mock_urljoin mock_lower 2 _ (Some (Ok tt))
                   mock_lower_finds_test _)).
  vm_compute. reflexivity.
Defined.

(** [HeLLo] and [hello] find the same pages, in [filled] and in a copy of it
    with all texts in capitals. *)
Lemma search_ignores_case_witness :
  lower_on_ascii mock_lower ∧
  is_ascii "HeLLo" = true ∧ is_ascii "hello" = true ∧ ci_eqb "HeLLo" "hello" = true ∧
  same_up_to_case (index filled) (index shouted) ∧
  (search mock_lower "HeLLo" filled).2 = Some (Ok ["a"; "b"]) ∧
  (search mock_lower "HeLLo" filled).2 = (search mock_lower "hello" shouted).2.
Proof.
  assert (same_up_to_case (index filled) (index shouted)) as Hd.
  { repeat constructor; right; split_and!; reflexivity. }
  split; [exact mock_lower_on_ascii|].
  do 3 (split; [reflexivity|]). split; [exact Hd|].
  split; [vm_compute; reflexivity|].
  exact (proj1 (search_ignores_case mock_lower "HeLLo" "hello" filled shouted
                  mock_lower_on_ascii eq_refl eq_refl eq_refl Hd)).
Defined.

Lemma cyclic_site_links_resolve :
  links_resolve (mock_get cyclic_site) (mock_links cyclic_site) mock_urljoin
                "https://example.com".
Proof.
  intros u text h e Hget Hin Hh Hj.
  unfold mock_get in Hget.
  destruct (site_page cyclic_site u) as [p|] eqn:Hp; [|done]. injection Hget as <-.
  unfold mock_links in Hin. rewrite Hp in Hin. simpl in Hp.
  destruct (String.eqb u "https://example.com").
  { injection Hp as <-. apply list_elem_of_singleton in Hin. injection Hin as ->.
    vm_compute in Hj. done. }
  destruct (String.eqb u "https://example.com/about"); [|done].
  injection Hp as <-. apply list_elem_of_singleton in Hin. injection Hin as ->.
  vm_compute in Hj. done.
Qed.

(** On the cyclic site the crawl visits the two pages, which are exactly
    what is reachable from the home page. *)
Lemma crawl_visits_exactly_reachable_witness :
  ∃ st',
    mock_crawl cyclic_site 3 "https://example.com" None init = (st', Some (Ok tt)) ∧
    visited st' = {["https://example.com"; "https://example.com/about"]} ∧
    ∀ u, u ∈ visited st' ↔
         ∃ b, reachable (mock_get cyclic_site) (mock_links cyclic_site) mock_urljoin
                        ("https://example.com", None) (u, b).
Proof.
  eexists. split; [vm_compute; reflexivity|]. split; [vm_compute; reflexivity|].
  refine (crawl_visits_exactly_reachable (mock_get cyclic_site) (mock_text cyclic_site)
            (mock_links cyclic_site) mock_urljoin 3 "https://example.com" None
            _ (Ok tt) _ _ _).
  - vm_compute. reflexivity.
  - discriminate.
  - exact cyclic_site_links_resolve.
Defined.

(** On the cyclic site [/about] is visited, and is reached from the home
    page. *)
Lemma crawl_visits_only_reachable_witness :
  "https://example.com/about"
    ∈ visited (mock_crawl cyclic_site 3 "https://example.com" None init).1 ∧
  ("https://example.com/about" ∈ visited init ∨
   ∃ b, reachable (mock_get cyclic_site) (mock_links cyclic_site) mock_urljoin
                  ("https://example.com", None) ("https://example.com/about", b)).
Proof.
  assert ("https://example.com/about"
            ∈ visited (mock_crawl cyclic_site 3 "https://example.com" None init).1) as Hv
    by by_computation.
  split; [exact Hv|].
  exact (crawl_visits_only_reachable (mock_get cyclic_site) (mock_text cyclic_site)
           (mock_links cyclic_site) mock_urljoin 3 "https://example.com" None init
           "https://example.com/about" Hv).
Defined.
